(** * Ising spin model (spin.py): shallow embedding and verified properties

    The development follows the layout of [spin.py]:
    - [Node]: a spin-carrying vertex ([seth], [setJn], [switchSpin], [getE]);
    - [Model]: the node dictionary together with the edge list [Js] and the
      field list [hs], built by [Model_init];
    - [update]: one stochastic sweep;
    - [modelE]: [I] sweeps followed by the Hamiltonian;
    - [modelSpin]: the '+' / '-' read-out.

    Modelling conventions.
    - Python integers are [Z].
    - The node dictionary is an insertion-ordered association list
      ([dict]): Python dictionaries iterate in insertion order and
      [modelSpin] depends on it.  A failed subscript raises [KeyError].
    - A finite Python float is the real number it denotes ([T] and the
      value of [random.random()] are reals).  The floating-point operations
      behind [math.exp(2*E/T)] (conversion of an integer, division,
      [math.exp]) are operations of an interface [Floats]: they round, can
      produce an infinity and can raise [OverflowError]; the interface fixes
      only what every IEEE-754 double arithmetic guarantees.  Division by
      zero raises [ZeroDivisionError].
    - The module-level generator [random] is an oracle indexed by the number
      of calls made so far ([Random]); a program state carries that call
      counter next to the dictionary. *)

From Stdlib Require Import ZArith List Bool Lia Reals Lra Ascii FinFun.
From Stdlib Require String.
Import String.StringSyntax.
Bind Scope string_scope with String.string.
Import ListNotations.
Open Scope Z_scope.

(** ** Exceptions and the error monad *)

Inductive exn : Type :=
| KeyError (k : Z)
| ZeroDivisionError
| ValueError
| OverflowError.

Inductive result (A : Type) : Type :=
| Ok (a : A)
| Raise (e : exn).

Arguments Ok {A} a.
Arguments Raise {A} e.

Definition bind {A B : Type} (m : result A) (f : A -> result B) : result B :=
  match m with
  | Ok a => f a
  | Raise e => Raise e
  end.

Notation "x <- m ;; k" := (bind m (fun x => k))
  (at level 61, m at next level, right associativity).

(** [for x in xs: acc = body(acc, x)], stopping at the first exception. *)
Fixpoint for_each {A S : Type} (body : S -> A -> result S) (xs : list A) (acc : S)
  : result S :=
  match xs with
  | [] => Ok acc
  | x :: xs' => acc' <- body acc x ;; for_each body xs' acc'
  end.

(** [for i in range(n): st = body(st)] where the body ignores [i]. *)
Fixpoint repeat_n {S : Type} (n : nat) (body : S -> result S) (st : S) : result S :=
  match n with
  | O => Ok st
  | Datatypes.S n' => st' <- body st ;; repeat_n n' body st'
  end.

(** ** class Node *)

Record Node : Type := mkNode {
  spin : Z;               (* self.spin *)
  h : Z;                  (* self.h *)
  Jn : list (Z * Z)       (* self.Jn: (neighbour, weight) pairs *)
}.

Definition seth (self : Node) (w : Z) : Node :=
  {| spin := spin self; h := w; Jn := Jn self |}.

Definition geth (self : Node) : Z := h self.

Definition setJn (self : Node) (p : Z * Z) : Node :=
  {| spin := spin self; h := h self; Jn := Jn self ++ [p] |}.

Definition getJn (self : Node) : list (Z * Z) := Jn self.

Definition switchSpin (self : Node) : Node :=
  {| spin := - spin self; h := h self; Jn := Jn self |}.

Definition getSpin (self : Node) : Z := spin self.

(** ** The node dictionary *)

Definition dict : Type := list (Z * Node).

Fixpoint dict_get (d : dict) (k : Z) : option Node :=
  match d with
  | [] => None
  | (k', v) :: d' => if k' =? k then Some v else dict_get d' k
  end.

(** [d[k] = v]: overwrite in place when the key exists, append otherwise. *)
Fixpoint dict_set (d : dict) (k : Z) (v : Node) : dict :=
  match d with
  | [] => [(k, v)]
  | (k', v') :: d' =>
      if k' =? k then (k', v) :: d' else (k', v') :: dict_set d' k v
  end.

Definition dict_keys (d : dict) : list Z := map fst d.

(** [d[k]] as an expression. *)
Definition getitem (d : dict) (k : Z) : result Node :=
  match dict_get d k with
  | Some v => Ok v
  | None => Raise (KeyError k)
  end.

(** [nodes[k].method(...)] for a mutating method: the object stored under
    [k] is replaced by its new value. *)
Definition call_on (d : dict) (k : Z) (method : Node -> Node) : result dict :=
  nd <- getitem d k ;; Ok (dict_set d k (method nd)).

(** ** Node.getE *)

Definition getE_step (self : Node) (nodes : dict) (E : Z) (i : Z * Z) : result Z :=
  other <- getitem nodes (fst i) ;;
  Ok (E + (geth self * getSpin self + snd i * getSpin self * getSpin other)).

Definition getE (self : Node) (nodes : dict) : result Z :=
  E <- for_each (getE_step self nodes) (getJn self) 0 ;;
  Ok (- E).

(** ** The random source *)

Record Random : Type := mkRandom {
  choice_at : nat -> bool;     (* which element random.choice picks *)
  randint_at : nat -> Z;       (* raw integer behind random.randint *)
  random_at : nat -> R;        (* value of random.random() *)
  random_at_range : forall k, (0 <= random_at k < 1)%R
}.

(** [random.choice((-1, 1))] at call number [c]. *)
Definition choice_pm (rng : Random) (c : nat) : Z :=
  if choice_at rng c then 1 else -1.

(** [random.randint(a, b)] at call number [c]: an integer [N] with
    [a <= N <= b]; [ValueError] on an empty range. *)
Definition randint (rng : Random) (c : nat) (a b : Z) : result Z :=
  if b <? a then Raise ValueError
  else Ok (a + randint_at rng c mod (b - a + 1)).

(** [random.random()] at call number [c]. *)
Definition random (rng : Random) (c : nat) : R := random_at rng c.

(** A program state: the node dictionary and the number of calls made to
    the random source so far. *)
Definition state : Type := (dict * nat)%type.

(** [Node()] *)
Definition Node_init (rng : Random) (c : nat) : Node * nat :=
  ({| spin := choice_pm rng c; h := 0; Jn := [] |}, Datatypes.S c).

(** ** class Model *)

Record Model : Type := mkModel {
  nodes : dict;                (* self.nodes *)
  Js : list (Z * Z * Z);       (* self.Js *)
  hs : list (Z * Z)            (* self.hs *)
}.

Definition getNodes (m : Model) : dict := nodes m.
Definition getJs (m : Model) : list (Z * Z * Z) := Js m.
Definition geths (m : Model) : list (Z * Z) := hs m.

(** First loop of [Model.__init__]: [self.nodes[n] = Node()]. *)
Definition create_node (rng : Random) (st : state) (n : Z) : result state :=
  let '(d, c) := st in
  let '(nd, c') := Node_init rng c in
  Ok (dict_set d n nd, c').

(** [range(n)] *)
Definition range (n : Z) : list Z := map Z.of_nat (seq 0 (Z.to_nat n)).

(** Body of the second loop of [Model.__init__]. *)
Definition add_weight (m : Model) (w : Z * Z * Z) : result Model :=
  let '(w0, w1, w2) := w in
  if negb (w0 =? w1) then
    d1 <- call_on (nodes m) w0 (fun nd => setJn nd (w1, w2)) ;;
    d2 <- call_on d1 w1 (fun nd => setJn nd (w0, w2)) ;;
    Ok {| nodes := d2; Js := Js m ++ [(w0, w1, w2)]; hs := hs m |}
  else if w0 =? w1 then
    d1 <- call_on (nodes m) w0 (fun nd => seth nd w2) ;;
    Ok {| nodes := d1; Js := Js m; hs := hs m ++ [(w0, w2)] |}
  else Ok m.

(** [Model(node_qty, weights)], started at call number [c]. *)
Definition Model_init (rng : Random) (node_qty : Z) (weights : list (Z * Z * Z))
  (c : nat) : result (Model * nat) :=
  st <- for_each (create_node rng) (range node_qty) ([], c) ;;
  m <- for_each add_weight weights {| nodes := fst st; Js := []; hs := [] |} ;;
  Ok (m, snd st).

(** ** update: one sweep *)

(** *** Floating point

    The value of a float expression: a finite double, seen as the real it
    denotes, or an infinity.  (No NaN arises from the operations below on
    finite operands.) *)
Inductive fval : Type :=
| Fin (x : R)
| PInf
| NInf.

Definition nonpos (v : fval) : Prop :=
  match v with Fin q => (q <= 0)%R | NInf => True | PInf => False end.

Definition nonneg (v : fval) : Prop :=
  match v with Fin q => (0 <= q)%R | PInf => True | NInf => False end.

Definition at_least_one (v : fval) : Prop :=
  match v with Fin q => (1 <= q)%R | PInf => True | NInf => False end.

(** The largest finite double, [sys.float_info.max], as an integer. *)
Definition DBL_MAX : Z := 2 ^ 1024 - 2 ^ 971.

(** The double arithmetic the program runs on.
    - [float_of_int n]: the conversion [float(n)] that [n / T] performs on
      its integer operand; [None] stands for [OverflowError].
    - [fdiv x T]: the quotient [x / T] of two finite doubles, [T <> 0].
    - [fexp v]: [math.exp(v)]; [None] stands for [OverflowError].
    The laws hold of IEEE-754 doubles with round-to-nearest and of any
    [exp] that rounds to a neighbouring double. *)
Record Floats : Type := mkFloats {
  float_of_int : Z -> option R;
  fdiv : R -> R -> fval;
  fexp : fval -> option fval;
  float_of_int_overflow : forall n, 2 ^ 1024 <= Z.abs n -> float_of_int n = None;
  float_of_int_in_range : forall n, Z.abs n <= DBL_MAX -> exists x, float_of_int n = Some x;
  float_of_int_sign : forall n x, float_of_int n = Some x ->
                                  (n <= 0 -> (x <= 0)%R) /\ (0 <= n -> (0 <= x)%R);
  fdiv_zero : forall T, T <> 0%R -> fdiv 0 T = Fin 0;
  fdiv_pos : forall x T, (x <= 0)%R -> (0 < T)%R -> nonpos (fdiv x T);
  fdiv_neg : forall x T, (x <= 0)%R -> (T < 0)%R -> nonneg (fdiv x T);
  fexp_zero : fexp (Fin 0) = Some (Fin 1);
  fexp_nonpos : forall v, nonpos v -> exists p, fexp v = Some (Fin p) /\ (0 <= p <= 1)%R;
  fexp_nonneg : forall v p, nonneg v -> fexp v = Some p -> at_least_one p
}.

(** [r < p] for a finite [r]. *)
Definition below (r : R) (p : fval) : bool :=
  match p with
  | Fin q => if Rlt_dec r q then true else false
  | PInf => true
  | NInf => false
  end.

(** [math.exp(2*E/T)]: the integer [2*E] is converted first, then divided by
    [T], then [math.exp] is applied. *)
Definition boltzmann (fl : Floats) (E : Z) (T : R) : result fval :=
  match float_of_int fl (2 * E) with
  | None => Raise OverflowError
  | Some x =>
      if Req_dec_T T 0 then Raise ZeroDivisionError
      else match fexp fl (fdiv fl x T) with
           | None => Raise OverflowError
           | Some p => Ok p
           end
  end.

(** One iteration of the loop of [update]. *)
Definition trial (fl : Floats) (rng : Random) (node_qty : Z) (T : R) (st : state)
  : result state :=
  let '(d, c) := st in
  n <- randint rng c 0 (node_qty - 1) ;;
  let c := Datatypes.S c in
  self <- getitem d n ;;
  E <- getE self d ;;
  if 0 <? E then
    d' <- call_on d n switchSpin ;; Ok (d', c)
  else if E <=? 0 then
    let r := random rng c in
    let c := Datatypes.S c in
    p <- boltzmann fl E T ;;
    if below r p then
      d' <- call_on d n switchSpin ;; Ok (d', c)
    else Ok (d, c)
  else Ok (d, c).

Definition update (fl : Floats) (rng : Random) (node_qty : Z) (T : R) (st : state)
  : result state :=
  repeat_n (Z.to_nat node_qty) (trial fl rng node_qty T) st.

(** ** modelE *)

Definition edge_step (d : dict) (mE : Z) (w : Z * Z * Z) : result Z :=
  let '(w0, w1, w2) := w in
  a <- getitem d w0 ;;
  b <- getitem d w1 ;;
  Ok (mE + getSpin a * getSpin b * w2).

Definition field_step (d : dict) (mE : Z) (w : Z * Z) : result Z :=
  a <- getitem d (fst w) ;;
  Ok (mE + getSpin a * snd w).

Definition modelE (fl : Floats) (rng : Random) (model : Model) (node_qty : Z) (I : Z)
  (T : R) (st : state) : result (Z * state) :=
  st' <- repeat_n (Z.to_nat I) (update fl rng node_qty T) st ;;
  mE <- for_each (edge_step (fst st')) (getJs model) 0 ;;
  mE <- for_each (field_step (fst st')) (geths model) mE ;;
  Ok (- mE, st').

(** ** modelSpin *)

Definition plus : ascii := "+"%char.
Definition minus : ascii := "-"%char.

Definition modelSpin (d : dict) : result (list ascii) :=
  st <- for_each (fun acc e => nd <- getitem d e ;; Ok (acc ++ [getSpin nd]))
                 (dict_keys d) [] ;;
  Ok (map (fun x => if 0 <? x then plus else minus) st).

(** ** Specification-side definitions *)

(** The symbol [modelSpin] prints for a spin value. *)
Definition symbol (x : Z) : ascii := if 0 <? x then plus else minus.

Definition zsum (l : list Z) : Z := fold_right Z.add 0 l.

(** Spin stored under key [k] (0 when the key is absent). *)
Definition spin_of (d : dict) (k : Z) : Z :=
  match dict_get d k with
  | Some nd => spin nd
  | None => 0
  end.

(** Local energy as the specification words it: the negated sum, over the
    coupling list, of [field*spin + weight*spin*neighbourSpin]. *)
Definition local_energy_spec (self : Node) (d : dict) : Z :=
  - zsum (map (fun p => h self * spin self + snd p * spin self * spin_of d (fst p))
              (Jn self)).

(** Total energy as the specification words it. *)
Definition total_energy_spec (edges : list (Z * Z * Z)) (fields : list (Z * Z))
  (d : dict) : Z :=
  - (zsum (map (fun e => spin_of d (fst (fst e)) * spin_of d (snd (fst e)) * snd e) edges)
     + zsum (map (fun f => spin_of d (fst f) * snd f) fields)).

(** Effect of one input triple on the node stored under key [k]. *)
Definition apply_weight (k : Z) (nd : Node) (w : Z * Z * Z) : Node :=
  let '(w0, w1, w2) := w in
  if w0 =? w1 then
    if w0 =? k then seth nd w2 else nd
  else
    let nd1 := if w0 =? k then setJn nd (w1, w2) else nd in
    if w1 =? k then setJn nd1 (w0, w2) else nd1.

(** Coupling entries that the triple list contributes to node [k]. *)
Definition incident (k : Z) (ws : list (Z * Z * Z)) : list (Z * Z) :=
  flat_map (fun w : Z * Z * Z =>
              let '(w0, w1, w2) := w in
              if w0 =? w1 then []
              else (if w0 =? k then [(w1, w2)] else [])
                   ++ (if w1 =? k then [(w0, w2)] else [])) ws.

(** Field of node [k] after the triple list, starting from [h0]. *)
Definition last_field (k : Z) (ws : list (Z * Z * Z)) (h0 : Z) : Z :=
  fold_left (fun acc (w : Z * Z * Z) =>
               let '(w0, w1, w2) := w in
               if (w0 =? w1) && (w0 =? k) then w2 else acc) ws h0.

Definition pair_eq_dec : forall x y : Z * Z, {x = y} + {x <> y}.
Proof. decide equality; apply Z.eq_dec. Defined.

Definition triple_eq_dec : forall x y : Z * Z * Z, {x = y} + {x <> y}.
Proof. decide equality; [apply Z.eq_dec | apply pair_eq_dec]. Defined.

Definition is_edge (w : Z * Z * Z) : bool := negb (fst (fst w) =? snd (fst w)).
Definition is_field (w : Z * Z * Z) : bool := fst (fst w) =? snd (fst w).

(** The dictionary after the first loop of [Model.__init__]: keys
    [0 .. n-1] in insertion order, node [i] created by call number [c + i]. *)
Definition initial_nodes (rng : Random) (c : nat) (n : nat) : dict :=
  map (fun i => (Z.of_nat i, mkNode (choice_pm rng (c + i)) 0 [])) (seq 0 n).

Definition field_of (w : Z * Z * Z) : Z * Z := (fst (fst w), snd w).

(** Every coupling entry points at a key of the dictionary. *)
Definition closed (d : dict) : Prop :=
  forall k nd p, dict_get d k = Some nd -> In p (Jn nd) -> dict_get d (fst p) <> None.

Definition spins_ok (d : dict) : Prop :=
  forall k nd, dict_get d k = Some nd -> spin nd = 1 \/ spin nd = -1.

(** The shape every dictionary of a run has: keys [0 .. node_qty-1] in
    order, coupling entries pointing at keys, spins +1 or -1. *)
Definition inv (node_qty : Z) (d : dict) : Prop :=
  dict_keys d = range node_qty /\ closed d /\ spins_ok d.

(** States reached from [st] by any number of successful trials. *)
Inductive reachable (fl : Floats) (rng : Random) (node_qty : Z) (T : R) (st : state)
  : state -> Prop :=
| reach_refl : reachable fl rng node_qty T st st
| reach_trial st1 st2 :
    reachable fl rng node_qty T st st1 ->
    trial fl rng node_qty T st1 = Ok st2 ->
    reachable fl rng node_qty T st st2.

(** The specification's reading of invalid temperatures: with at least one
    node and [T <= 0] the first sweep raises. *)
Definition invalid_temperature_always_raises : Prop :=
  forall fl rng node_qty weights c m c' T,
    Model_init rng node_qty weights c = Ok (m, c') ->
    1 <= node_qty -> (T <= 0)%R ->
    exists e, update fl rng node_qty T (nodes m, c') = Raise e.


(** The specification's reading of [modelE]: for every constructed model and
    [T > 0] the sweeps run and the energy is returned. *)
Definition modelE_always_returns : Prop :=
  forall fl rng node_qty weights c m c' I T,
    Model_init rng node_qty weights c = Ok (m, c') ->
    (0 < T)%R ->
    exists e st', modelE fl rng m node_qty I T (nodes m, c') = Ok (e, st').

(** A bound on the absolute value of a node's local energy, whatever the
    spins: the sum over its coupling list of [|field| + |weight|]. *)
Definition energy_bound (nd : Node) : Z :=
  zsum (map (fun p => Z.abs (h nd) + Z.abs (snd p)) (Jn nd)).

(** Twice every local energy is within the range of doubles. *)
Definition float_safe (d : dict) : Prop :=
  forall k nd, dict_get d k = Some nd -> 2 * energy_bound nd <= DBL_MAX.

Definition float_safeb (d : dict) : bool :=
  forallb (fun kv => 2 * energy_bound (snd kv) <=? DBL_MAX) d.

(** A double arithmetic used in the examples: conversion and division
    without rounding error; [exp] is 0 below the underflow threshold, raises
    above the overflow threshold, and is that of the reals in between. *)
Definition real_floats : Floats.
Proof.
  refine (mkFloats
            (fun n => if 2 ^ 1024 <=? Z.abs n then None else Some (IZR n))
            (fun x T => Fin (x / T))
            (fun v => match v with
                      | Fin q => if Rlt_dec q (-746) then Some (Fin 0)
                                 else if Rle_dec q 709 then Some (Fin (exp q)) else None
                      | PInf => Some PInf
                      | NInf => Some (Fin 0)
                      end)
            _ _ _ _ _ _ _ _ _).
  - intros n Hn. apply Z.leb_le in Hn. rewrite Hn. reflexivity.
  - intros n Hn. assert (Hmax : DBL_MAX < 2 ^ 1024) by (vm_compute; reflexivity).
    destruct (2 ^ 1024 <=? Z.abs n) eqn:E; [apply Z.leb_le in E; lia | eauto].
  - intros n x H. destruct (2 ^ 1024 <=? Z.abs n); [discriminate|].
    injection H as <-. split; intros Hn; apply IZR_le in Hn; exact Hn.
  - intros T HT. f_equal. unfold Rdiv. ring.
  - intros x T Hx HT. simpl. unfold Rdiv.
    pose proof (Rinv_0_lt_compat T HT). nra.
  - intros x T Hx HT. simpl. unfold Rdiv.
    pose proof (Rinv_lt_0_compat T HT). nra.
  - destruct (Rlt_dec 0 (-746)) as [Hu|_]; [exfalso; lra|].
    destruct (Rle_dec 0 709) as [_|Hn]; [rewrite exp_0; reflexivity | exfalso; lra].
  - intros [q| |] Hv; simpl in Hv; try contradiction.
    + destruct (Rlt_dec q (-746)) as [_|_]; [exists 0%R; split; [reflexivity | lra]|].
      destruct (Rle_dec q 709) as [_|Hn]; [|exfalso; lra].
      exists (exp q). split; [reflexivity|]. split; [left; apply exp_pos|].
      destruct Hv as [Hlt | ->]; [|rewrite exp_0; lra].
      pose proof (exp_increasing q 0 Hlt) as Hi. rewrite exp_0 in Hi. lra.
    + exists 0%R. split; [reflexivity | lra].
  - intros [q| |] p Hv; simpl in Hv; try contradiction.
    + destruct (Rlt_dec q (-746)) as [Hu|_]; [exfalso; lra|].
      destruct (Rle_dec q 709); [|discriminate]. intros [= <-]. simpl.
      destruct Hv as [Hlt | <-]; [|rewrite exp_0; lra].
      pose proof (exp_increasing 0 q Hlt) as Hi. rewrite exp_0 in Hi. lra.
    + intros [= <-]. exact I.
Defined.

(** A concrete random source used in the examples. *)
Definition rng0 : Random :=
  {| choice_at := Nat.even;
     randint_at := Z.of_nat;
     random_at := fun _ => 0%R;
     random_at_range := fun _ => conj (Rle_refl 0) Rlt_0_1 |}.

(** Contribution of one input triple to the sum that [modelE] negates. *)
Definition triple_energy (d : dict) (w : Z * Z * Z) : Z :=
  if is_field w then spin_of d (fst (fst w)) * snd w
  else spin_of d (fst (fst w)) * spin_of d (snd (fst w)) * snd w.

(** [d'] has the keys of [d] in the same order, and under every key a node
    with the same field and couplings whose spin is kept or negated. *)
Definition same_but_spin (d d' : dict) : Prop :=
  dict_keys d' = dict_keys d
  /\ forall k nd', dict_get d' k = Some nd' ->
       exists nd, dict_get d k = Some nd
                  /\ h nd' = h nd /\ Jn nd' = Jn nd
                  /\ (spin nd' = spin nd \/ spin nd' = - spin nd).

(** ** Reading the instance: get_data and parse_data

    A Python string is the list of its code points.  The tables of the
    Python runtime that the text functions consult (which characters are
    whitespace, which are line boundaries, what [int] makes of a string) are
    gathered in [Builtins]; the functions below are written over any such
    tables.  Exceptions of this layer extend [exn] by [IndexError] and
    [UnboundLocalError]. *)

Definition str : Type := list N.

Record Builtins : Type := mkBuiltins {
  isspace : N -> bool;            (* whitespace for str.strip() and str.split() *)
  islinebreak : N -> bool;        (* line boundaries of str.splitlines() *)
  int_of_str : str -> option Z    (* int(s); None stands for ValueError *)
}.

Inductive pyexn : Type :=
| Core (e : exn)
| IndexError
| UnboundLocalError.

Inductive outcome (A : Type) : Type :=
| Return (a : A)
| Throw (e : pyexn).

Arguments Return {A} a.
Arguments Throw {A} e.

Definition obind {A B : Type} (m : outcome A) (f : A -> outcome B) : outcome B :=
  match m with
  | Return a => f a
  | Throw e => Throw e
  end.

Notation "x <~ m ;; k" := (obind m (fun x => k))
  (at level 61, m at next level, right associativity).

Definition lift {A : Type} (r : result A) : outcome A :=
  match r with
  | Ok a => Return a
  | Raise e => Throw (Core e)
  end.

(** [for x in xs: acc = body(acc, x)] in this layer. *)
Fixpoint for_lines {A S : Type} (body : S -> A -> outcome S) (xs : list A) (acc : S)
  : outcome S :=
  match xs with
  | [] => Return acc
  | x :: xs' => acc' <~ body acc x ;; for_lines body xs' acc'
  end.

(** [t[i]] for a literal index [i >= 0]. *)
Definition index {A : Type} (l : list A) (i : nat) : outcome A :=
  match nth_error l i with
  | Some x => Return x
  | None => Throw IndexError
  end.

Definition chr_c : N := 99%N.        (* 'c' *)
Definition chr_p : N := 112%N.       (* 'p' *)
Definition chr_space : N := 32%N.    (* ' ' *)
Definition chr_CR : N := 13%N.
Definition chr_LF : N := 10%N.

(** [s.splitlines()]: [cur] holds the current line, reversed.  A carriage
    return followed by a line feed is one boundary; a final boundary does not
    open a further line. *)
Fixpoint splitlines_from (b : Builtins) (cur : str) (s : str) : list str :=
  match s with
  | [] => match cur with [] => [] | _ => [rev cur] end
  | ch :: s' =>
      if islinebreak b ch then
        rev cur ::
          match s' with
          | ch' :: s'' =>
              if ((ch =? chr_CR) && (ch' =? chr_LF))%N
              then splitlines_from b [] s''
              else splitlines_from b [] s'
          | [] => []
          end
      else splitlines_from b (ch :: cur) s'
  end.

Definition splitlines (b : Builtins) (s : str) : list str := splitlines_from b [] s.

Fixpoint lstrip (b : Builtins) (s : str) : str :=
  match s with
  | [] => []
  | ch :: s' => if isspace b ch then lstrip b s' else s
  end.

(** [s.strip()] *)
Definition strip (b : Builtins) (s : str) : str :=
  rev (lstrip b (rev (lstrip b s))).

(** [s.split(sep)] for a one-character separator. *)
Fixpoint split_on (sep : N) (cur : str) (s : str) : list str :=
  match s with
  | [] => [rev cur]
  | ch :: s' =>
      if (ch =? sep)%N then rev cur :: split_on sep [] s'
      else split_on sep (ch :: cur) s'
  end.

(** [s.split()]: runs of whitespace separate, none at the ends counts. *)
Fixpoint split_ws (b : Builtins) (cur : str) (s : str) : list str :=
  match s with
  | [] => match cur with [] => [] | _ => [rev cur] end
  | ch :: s' =>
      if isspace b ch then
        match cur with
        | [] => split_ws b [] s'
        | _ => rev cur :: split_ws b [] s'
        end
      else split_ws b (ch :: cur) s'
  end.

Definition truthy (s : str) : bool :=
  match s with [] => false | _ => true end.

(** [get_data], given the text that [f.read()] returns for the file. *)
Definition get_data (b : Builtins) (contents : str) : list str :=
  let lines := splitlines b contents in
  map (strip b) (filter (fun x => truthy (strip b x)) lines).

(** [tuple(map(int, tokens))] *)
Fixpoint map_int (b : Builtins) (tokens : list str) : outcome (list Z) :=
  match tokens with
  | [] => Return []
  | t :: ts =>
      match int_of_str b t with
      | None => Throw (Core ValueError)
      | Some z => zs <~ map_int b ts ;; Return (z :: zs)
      end
  end.

(** The loop of [parse_data] carries [node_qty] (unbound until a 'p' line
    has been read) and [weights]. *)
Definition parse_state : Type := (option Z * list (list Z))%type.

Definition parse_line (b : Builtins) (acc : parse_state) (l : str) : outcome parse_state :=
  c0 <~ index l 0 ;;
  if (c0 =? chr_c)%N then Return acc
  else if (c0 =? chr_p)%N then
    let p := split_on chr_space [] l in
    x <~ index p 2 ;;
    match int_of_str b x with
    | None => Throw (Core ValueError)
    | Some n => Return (Some n, snd acc)
    end
  else
    t <~ map_int b (split_ws b [] l) ;;
    Return (fst acc, snd acc ++ [t]).

Definition parse_data (b : Builtins) (lines : list str) : outcome (Z * list (list Z)) :=
  acc <~ for_lines (parse_line b) lines (None, []) ;;
  match fst acc with
  | Some node_qty => Return (node_qty, snd acc)
  | None => Throw UnboundLocalError
  end.

(** Body of the second loop of [Model.__init__] for a tuple of any length:
    [w[0]] and [w[1]] are read by the comparison, the dictionary is
    subscripted before the argument [w[2]] is evaluated. *)
Definition add_weight_tuple (m : Model) (w : list Z) : outcome Model :=
  w0 <~ index w 0 ;;
  w1 <~ index w 1 ;;
  if negb (w0 =? w1) then
    nd0 <~ lift (getitem (nodes m) w0) ;;
    w2 <~ index w 2 ;;
    let d1 := dict_set (nodes m) w0 (setJn nd0 (w1, w2)) in
    nd1 <~ lift (getitem d1 w1) ;;
    let d2 := dict_set d1 w1 (setJn nd1 (w0, w2)) in
    Return {| nodes := d2; Js := Js m ++ [(w0, w1, w2)]; hs := hs m |}
  else if w0 =? w1 then
    nd0 <~ lift (getitem (nodes m) w0) ;;
    w2 <~ index w 2 ;;
    Return {| nodes := dict_set (nodes m) w0 (seth nd0 w2);
              Js := Js m; hs := hs m ++ [(w0, w2)] |}
  else Return m.

(** [Model(node_qty, weights)] for the tuples that [parse_data] produces. *)
Definition Model_init_tuples (rng : Random) (node_qty : Z) (weights : list (list Z))
  (c : nat) : outcome (Model * nat) :=
  st <~ lift (for_each (create_node rng) (range node_qty) ([], c)) ;;
  m <~ for_lines add_weight_tuple weights {| nodes := fst st; Js := []; hs := [] |} ;;
  Return (m, snd st).

(** The first three components of a tuple. *)
Definition first3 (w : list Z) : Z * Z * Z :=
  (nth 0 w 0, nth 1 w 0, nth 2 w 0).

Definition is_comment (l : str) : bool :=
  match l with ch :: _ => (ch =? chr_c)%N | [] => false end.

Definition is_problem (l : str) : bool :=
  match l with ch :: _ => (ch =? chr_p)%N | [] => false end.

Definition is_data (l : str) : bool :=
  match l with ch :: _ => negb (ch =? chr_c)%N && negb (ch =? chr_p)%N | [] => false end.

(** Code points of a literal, for examples. *)
Fixpoint str_of (s : String.string) : str :=
  match s with
  | String.EmptyString => []
  | String.String a s' => N_of_ascii a :: str_of s'
  end.

(** Tables for plain ASCII text, used in the examples: blank, tab, line
    feed, vertical tab, form feed and carriage return are whitespace; the
    last four are line boundaries; [int] reads an optional sign followed by
    decimal digits. *)
Definition ascii_isspace (ch : N) : bool :=
  ((ch =? 32) || (ch =? 9) || (ch =? 10) || (ch =? 11) || (ch =? 12) || (ch =? 13))%N.

Definition ascii_islinebreak (ch : N) : bool :=
  ((ch =? 10) || (ch =? 11) || (ch =? 12) || (ch =? 13))%N.

Fixpoint digits_value (acc : Z) (s : str) : option Z :=
  match s with
  | [] => Some acc
  | ch :: s' =>
      if ((48 <=? ch) && (ch <=? 57))%N
      then digits_value (10 * acc + Z.of_N (ch - 48)) s'
      else None
  end.

Definition ascii_int (s : str) : option Z :=
  match s with
  | [] => None
  | ch :: s' =>
      if (ch =? 45)%N then
        match s' with [] => None | _ => option_map Z.opp (digits_value 0 s') end
      else if (ch =? 43)%N then
        match s' with [] => None | _ => digits_value 0 s' end
      else digits_value 0 s
  end.

Definition ascii_builtins : Builtins :=
  {| isspace := ascii_isspace; islinebreak := ascii_islinebreak; int_of_str := ascii_int |}.

(** * Properties *)

(** ** The error monad and the loops *)

Lemma bind_ok {A B} (m : result A) (f : A -> result B) (b : B) :
  bind m f = Ok b -> exists a, m = Ok a /\ f a = Ok b.
Proof. destruct m as [a|e]; simpl; intros H; [eauto | discriminate]. Qed.

Lemma for_each_app {A S} (body : S -> A -> result S) xs ys acc :
  for_each body (xs ++ ys) acc = (acc' <- for_each body xs acc ;; for_each body ys acc').
Proof.
  revert acc; induction xs as [|x xs IH]; intros acc; simpl; [reflexivity|].
  destruct (body acc x); simpl; auto.
Qed.

Ltac inv_bind H :=
  let a := fresh "a" in
  let Ha := fresh "Ha" in
  apply bind_ok in H; destruct H as (a & Ha & H).

(** ** Dictionary *)

Lemma dict_get_set (d : dict) k v k' :
  dict_get (dict_set d k v) k' = if k =? k' then Some v else dict_get d k'.
Proof.
  induction d as [|[k0 v0] d IH]; simpl.
  - reflexivity.
  - destruct (k0 =? k) eqn:E0; simpl.
    + apply Z.eqb_eq in E0; subst k0. destruct (k =? k'); reflexivity.
    + rewrite IH. destruct (k0 =? k') eqn:E1; [|reflexivity].
      apply Z.eqb_eq in E1; subst k0. rewrite Z.eqb_sym, E0. reflexivity.
Qed.

Lemma dict_get_in_keys (d : dict) k :
  dict_get d k <> None <-> In k (dict_keys d).
Proof.
  induction d as [|[k0 v0] d IH]; simpl.
  - split; [congruence | tauto].
  - destruct (k0 =? k) eqn:E0.
    + apply Z.eqb_eq in E0. split; [auto | congruence].
    + apply Z.eqb_neq in E0. rewrite IH. split; [auto | intros [?|?]; [contradiction | auto]].
Qed.

Lemma dict_get_none (d : dict) k :
  dict_get d k = None <-> ~ In k (dict_keys d).
Proof.
  rewrite <- dict_get_in_keys. destruct (dict_get d k); split; try congruence.
  intros H; exfalso; apply H; discriminate.
Qed.

Lemma dict_set_present (d : dict) k v :
  dict_get d k <> None -> dict_keys (dict_set d k v) = dict_keys d.
Proof.
  induction d as [|[k0 v0] d IH]; simpl; intros H.
  - congruence.
  - destruct (k0 =? k) eqn:E0; simpl; [reflexivity|]. f_equal. auto.
Qed.

Lemma dict_set_fresh (d : dict) k v :
  dict_get d k = None -> dict_set d k v = d ++ [(k, v)].
Proof.
  induction d as [|[k0 v0] d IH]; simpl; intros H; [reflexivity|].
  destruct (k0 =? k); [discriminate|]. f_equal; auto.
Qed.

Lemma getitem_ok (d : dict) k nd :
  getitem d k = Ok nd <-> dict_get d k = Some nd.
Proof.
  unfold getitem. destruct (dict_get d k); split; congruence.
Qed.

Lemma call_on_ok (d : dict) k f nd :
  dict_get d k = Some nd -> call_on d k f = Ok (dict_set d k (f nd)).
Proof. intros H. unfold call_on, getitem. rewrite H. reflexivity. Qed.

Lemma call_on_inv (d d' : dict) k f :
  call_on d k f = Ok d' ->
  exists nd, dict_get d k = Some nd /\ d' = dict_set d k (f nd).
Proof.
  unfold call_on. intros H. inv_bind H. apply getitem_ok in Ha.
  injection H as <-. eauto.
Qed.

Lemma dict_set_self (d : dict) k nd :
  dict_get d k = Some nd -> dict_set d k nd = d.
Proof.
  induction d as [|[k0 v0] d IH]; simpl; intros H; [discriminate|].
  destruct (k0 =? k) eqn:E0.
  - congruence.
  - f_equal; auto.
Qed.

Lemma dict_set_set (d : dict) k v1 v2 :
  dict_get d k <> None -> dict_set (dict_set d k v1) k v2 = dict_set d k v2.
Proof.
  induction d as [|[k0 v0] d IH]; simpl; intros H; [congruence|].
  destruct (k0 =? k) eqn:E0; simpl; rewrite E0; [reflexivity|].
  f_equal; auto.
Qed.

(** ** Node.switchSpin *)

Lemma switchSpin_spin (nd : Node) : getSpin (switchSpin nd) = - getSpin nd.
Proof. reflexivity. Qed.

Lemma switchSpin_twice (nd : Node) : switchSpin (switchSpin nd) = nd.
Proof.
  destruct nd as [s f j]. unfold switchSpin; simpl. rewrite Z.opp_involutive.
  reflexivity.
Qed.

(** C10: a single flip negates the spin and leaves field and couplings
    alone; flipping twice restores the node.  The same holds for the node
    stored in a dictionary: flipping [nodes[k]] twice gives the dictionary
    back.  This holds for every integer spin, in particular for +1 and -1. *)
Theorem switchSpin_involution :
  (forall nd : Node,
      getSpin (switchSpin nd) = - getSpin nd
      /\ geth (switchSpin nd) = geth nd
      /\ getJn (switchSpin nd) = getJn nd
      /\ switchSpin (switchSpin nd) = nd)
  /\ (forall (d : dict) k nd,
         dict_get d k = Some nd ->
         exists d1,
           call_on d k switchSpin = Ok d1
           /\ spin_of d1 k = - spin_of d k
           /\ call_on d1 k switchSpin = Ok d).
Proof.
  split.
  - intros nd. repeat split. apply switchSpin_twice.
  - intros d k nd Hk. exists (dict_set d k (switchSpin nd)).
    split; [apply call_on_ok; assumption|]. split.
    + unfold spin_of. rewrite dict_get_set, Z.eqb_refl, Hk. reflexivity.
    + erewrite call_on_ok by (rewrite dict_get_set, Z.eqb_refl; reflexivity).
      rewrite dict_set_set by congruence.
      rewrite switchSpin_twice, dict_set_self; auto.
Qed.

(** Instance of the dictionary part: one node, flipped twice. *)
Lemma switchSpin_involution_witness :
  exists d1,
    call_on [(0, mkNode 1 0 [])] 0 switchSpin = Ok d1
    /\ spin_of d1 0 = - spin_of [(0, mkNode 1 0 [])] 0
    /\ call_on d1 0 switchSpin = Ok [(0, mkNode 1 0 [])].
Proof.
  apply (proj2 switchSpin_involution [(0, mkNode 1 0 [])] 0 (mkNode 1 0 [])).
  reflexivity.
Defined.

(** ** Node.getE *)

Lemma spin_of_get (d : dict) k nd : dict_get d k = Some nd -> spin_of d k = spin nd.
Proof. unfold spin_of. intros ->. reflexivity. Qed.

Lemma getE_loop (self : Node) (d : dict) (js : list (Z * Z)) (acc : Z) :
  (forall p, In p js -> dict_get d (fst p) <> None) ->
  for_each (getE_step self d) js acc
  = Ok (acc + zsum (map (fun p => h self * spin self
                                  + snd p * spin self * spin_of d (fst p)) js)).
Proof.
  revert acc. induction js as [|p js IH]; intros acc Hin; simpl.
  - f_equal. lia.
  - assert (Hp : dict_get d (fst p) <> None) by (apply Hin; left; reflexivity).
    unfold getE_step at 1, getitem, spin_of.
    destruct (dict_get d (fst p)) as [other|] eqn:Ho; [|congruence]. simpl.
    rewrite IH by (intros q Hq; apply Hin; right; assumption).
    f_equal. unfold geth, getSpin, spin_of. lia.
Qed.

(** A coupling entry whose neighbour is not in the table makes [getE] raise
    [KeyError] for the first such neighbour. *)
Lemma getE_loop_missing (self : Node) (d : dict) (js1 js2 : list (Z * Z)) p acc :
  (forall q, In q js1 -> dict_get d (fst q) <> None) ->
  dict_get d (fst p) = None ->
  for_each (getE_step self d) (js1 ++ p :: js2) acc = Raise (KeyError (fst p)).
Proof.
  intros H1 Hp. rewrite for_each_app, getE_loop by assumption. simpl.
  unfold getE_step, getitem. rewrite Hp. reflexivity.
Qed.

Lemma zsum_field_split (f s : Z) (g : Z * Z -> Z) (js : list (Z * Z)) :
  zsum (map (fun p => f * s + snd p * s * g p) js)
  = Z.of_nat (length js) * (f * s) + s * zsum (map (fun p => snd p * g p) js).
Proof.
  induction js as [|p js IH]; [simpl; lia|].
  change (f * s + snd p * s * g p
          + zsum (map (fun p => f * s + snd p * s * g p) js)
          = Z.of_nat (S (length js)) * (f * s)
            + s * (snd p * g p + zsum (map (fun p => snd p * g p) js))).
  rewrite IH. lia.
Qed.

Lemma getE_loop_ok (self : Node) (d : dict) (js : list (Z * Z)) (acc r : Z) :
  for_each (getE_step self d) js acc = Ok r ->
  forall p, In p js -> dict_get d (fst p) <> None.
Proof.
  revert acc. induction js as [|q js IH]; intros acc H p Hp; [contradiction|].
  cbn [for_each] in H. inv_bind H. unfold getE_step in Ha. inv_bind Ha.
  apply getitem_ok in Ha0. destruct Hp as [<-|Hp]; [congruence|].
  eapply IH; eassumption.
Qed.

(** C2: whenever [getE] returns, for whatever node and node table, its value
    is the negated sum over the coupling list of
    [field*spin + weight*spin*neighbourSpin]; it does return when every
    neighbour named in the coupling list is in the table.  With [k] entries
    in the list the field term [field*spin] is therefore counted [k] times. *)
Theorem getE_local_energy (self : Node) (d : dict) :
  (forall E, getE self d = Ok E -> E = local_energy_spec self d)
  /\ ((forall p, In p (getJn self) -> dict_get d (fst p) <> None) ->
      getE self d = Ok (local_energy_spec self d))
  /\ local_energy_spec self d
     = - (Z.of_nat (length (getJn self)) * (geth self * getSpin self)
          + getSpin self
            * zsum (map (fun p => snd p * spin_of d (fst p)) (getJn self))).
Proof.
  assert (Hret : (forall p, In p (getJn self) -> dict_get d (fst p) <> None) ->
                 getE self d = Ok (local_energy_spec self d)).
  { intros Hin. unfold getE. rewrite getE_loop by assumption. reflexivity. }
  split; [|split].
  - intros E HE. pose proof HE as HE'. unfold getE in HE'. inv_bind HE'.
    rewrite Hret in HE by (eapply getE_loop_ok; eassumption). congruence.
  - exact Hret.
  - unfold local_energy_spec, getJn, geth, getSpin.
    rewrite (zsum_field_split (h self) (spin self) (fun p => spin_of d (fst p))).
    reflexivity.
Qed.

(** A node with field 3, spin -1 and two couplings: the field term enters
    the local energy twice. *)
Lemma getE_local_energy_witness :
  getE (mkNode (-1) 3 [(1, 5); (2, 7)])
       [(0, mkNode (-1) 3 [(1, 5); (2, 7)]); (1, mkNode 1 0 [(0, 5)]);
        (2, mkNode (-1) 0 [(0, 7)])]
  = Ok (local_energy_spec (mkNode (-1) 3 [(1, 5); (2, 7)])
          [(0, mkNode (-1) 3 [(1, 5); (2, 7)]); (1, mkNode 1 0 [(0, 5)]);
           (2, mkNode (-1) 0 [(0, 7)])]).
Proof.
  apply (proj1 (proj2 (getE_local_energy (mkNode (-1) 3 [(1, 5); (2, 7)])
                         [(0, mkNode (-1) 3 [(1, 5); (2, 7)]); (1, mkNode 1 0 [(0, 5)]);
                          (2, mkNode (-1) 0 [(0, 7)])]))).
  intros p [<-|[<-|[]]]; simpl; discriminate.
Defined.

Example getE_two_edges :
  getE (mkNode (-1) 3 [(1, 5); (2, 7)])
       [(0, mkNode (-1) 3 [(1, 5); (2, 7)]); (1, mkNode 1 0 [(0, 5)]);
        (2, mkNode (-1) 0 [(0, 7)])]
  = Ok (- (2 * (3 * -1) + (5 * -1 * 1 + 7 * -1 * -1))).
Proof. reflexivity. Qed.

Example getE_missing_neighbour :
  getE (mkNode 1 0 [(4, 5)]) [(0, mkNode 1 0 [(4, 5)])] = Raise (KeyError 4).
Proof. reflexivity. Qed.

(** ** Model.__init__ *)

Lemma in_range (n k : Z) : In k (range n) <-> 0 <= k < n.
Proof.
  unfold range. rewrite in_map_iff. split.
  - intros (i & <- & Hi). apply in_seq in Hi. lia.
  - intros Hk. exists (Z.to_nat k). split; [lia|]. apply in_seq. lia.
Qed.

Lemma range_length (n : Z) : 0 <= n -> Z.of_nat (length (range n)) = n.
Proof. intros Hn. unfold range. rewrite length_map, length_seq. lia. Qed.

Lemma range_nth (n i : Z) :
  0 <= i < n -> nth (Z.to_nat i) (range n) (-1) = i.
Proof.
  intros Hi. unfold range.
  change (-1) with (Z.of_nat 0 - 1) at 1.
  rewrite <- (Z2Nat.id i) at 2 by lia.
  generalize (Z.to_nat i) (Z.to_nat n) (Z2Nat.inj_lt i n ltac:(lia) ltac:(lia)).
  intros a b Hab. assert (Hlt : (a < b)%nat) by (apply Hab; lia).
  clear Hab Hi.
  rewrite nth_indep with (d' := Z.of_nat 0) by (rewrite length_map, length_seq; lia).
  rewrite map_nth, seq_nth by lia. reflexivity.
Qed.

Lemma range_NoDup (n : Z) : NoDup (range n).
Proof.
  unfold range. apply Injective_map_NoDup.
  - intros a b. apply Nat2Z.inj.
  - apply seq_NoDup.
Qed.

Lemma initial_nodes_keys rng c n :
  dict_keys (initial_nodes rng c n) = map Z.of_nat (seq 0 n).
Proof.
  unfold dict_keys, initial_nodes. rewrite map_map. reflexivity.
Qed.

Lemma dict_get_in (d : dict) k nd : dict_get d k = Some nd -> In (k, nd) d.
Proof.
  induction d as [|[k0 v0] d IH]; simpl; [discriminate|].
  destruct (k0 =? k) eqn:E0.
  - apply Z.eqb_eq in E0. intros [= ->]. left. congruence.
  - auto.
Qed.

Lemma initial_nodes_get rng c n k nd :
  dict_get (initial_nodes rng c n) k = Some nd ->
  (spin nd = 1 \/ spin nd = -1) /\ h nd = 0 /\ Jn nd = [].
Proof.
  intros H. apply dict_get_in in H. unfold initial_nodes in H.
  apply in_map_iff in H. destruct H as (i & [= _ <-] & _). simpl.
  unfold choice_pm. destruct (choice_at rng (c + i)); auto.
Qed.

Lemma create_loop rng c n :
  for_each (create_node rng) (map Z.of_nat (seq 0 n)) ([], c)
  = Ok (initial_nodes rng c n, (c + n)%nat).
Proof.
  induction n as [|n IH].
  - simpl. rewrite Nat.add_0_r. reflexivity.
  - rewrite seq_S, map_app, for_each_app, IH. simpl.
    rewrite dict_set_fresh.
    + unfold initial_nodes. rewrite seq_S, map_app. simpl.
      do 2 f_equal. lia.
    + apply dict_get_none. rewrite initial_nodes_keys, in_map_iff.
      intros (i & Hi & Hin). apply Nat2Z.inj in Hi. subst i.
      apply in_seq in Hin. lia.
Qed.

Lemma option_map_id_ext {A} (f : A -> A) (o : option A) :
  (forall a, f a = a) -> option_map f o = o.
Proof. intros H. destruct o; simpl; [rewrite H|]; reflexivity. Qed.

(** One input triple: keys are kept, both endpoints exist, and every node
    changes as [apply_weight] says. *)
Lemma add_weight_inv (m m' : Model) (w : Z * Z * Z) :
  add_weight m w = Ok m' ->
  dict_keys (nodes m') = dict_keys (nodes m)
  /\ (forall k, dict_get (nodes m') k
                = option_map (fun nd => apply_weight k nd w) (dict_get (nodes m) k))
  /\ Js m' = Js m ++ filter is_edge [w]
  /\ hs m' = hs m ++ map field_of (filter is_field [w])
  /\ dict_get (nodes m) (fst (fst w)) <> None
  /\ dict_get (nodes m) (snd (fst w)) <> None.
Proof.
  destruct w as [[w0 w1] w2]. unfold add_weight, apply_weight, is_edge, is_field, field_of.
  simpl. destruct (w0 =? w1) eqn:E01; simpl; intros H.
  - apply Z.eqb_eq in E01; subst w1.
    inv_bind H. injection H as <-. simpl.
    apply call_on_inv in Ha. destruct Ha as (nd & Hnd & ->).
    repeat split; try congruence; try (symmetry; apply app_nil_r).
    + apply dict_set_present; congruence.
    + intros k. rewrite dict_get_set. destruct (w0 =? k) eqn:E0.
      * apply Z.eqb_eq in E0; subst k. rewrite Hnd. reflexivity.
      * symmetry. apply option_map_id_ext. reflexivity.
  - inv_bind H. rename a into d1. inv_bind H. rename a into d2.
    injection H as <-. simpl.
    apply call_on_inv in Ha. destruct Ha as (nd0 & Hnd0 & ->).
    apply call_on_inv in Ha0. destruct Ha0 as (nd1 & Hnd1 & ->).
    assert (Hw1 : dict_get (nodes m) w1 <> None).
    { rewrite dict_get_set, E01 in Hnd1. congruence. }
    repeat split; try congruence; try (symmetry; apply app_nil_r).
    + rewrite dict_set_present by congruence.
      apply dict_set_present; congruence.
    + intros k. rewrite !dict_get_set.
      rewrite dict_get_set, E01 in Hnd1.
      destruct (w1 =? k) eqn:E1.
      * apply Z.eqb_eq in E1; subst k. rewrite E01, Hnd1. reflexivity.
      * destruct (w0 =? k) eqn:E0.
        -- apply Z.eqb_eq in E0; subst k. rewrite Hnd0. reflexivity.
        -- symmetry. apply option_map_id_ext. reflexivity.
Qed.

Lemma option_map_compose {A} (f g : A -> A) (o : option A) :
  option_map g (option_map f o) = option_map (fun a => g (f a)) o.
Proof. destruct o; reflexivity. Qed.

(** The whole second loop. *)
Lemma add_weights_inv (ws : list (Z * Z * Z)) (m m' : Model) :
  for_each add_weight ws m = Ok m' ->
  dict_keys (nodes m') = dict_keys (nodes m)
  /\ (forall k, dict_get (nodes m') k
                = option_map (fun nd => fold_left (apply_weight k) ws nd)
                             (dict_get (nodes m) k))
  /\ Js m' = Js m ++ filter is_edge ws
  /\ hs m' = hs m ++ map field_of (filter is_field ws)
  /\ (forall w, In w ws ->
        In (fst (fst w)) (dict_keys (nodes m))
        /\ In (snd (fst w)) (dict_keys (nodes m))).
Proof.
  revert m. induction ws as [|w ws IH]; intros m H.
  - injection H as <-. rewrite !app_nil_r. repeat split; try contradiction.
    intros k. destruct (dict_get (nodes m) k); reflexivity.
  - simpl in H. inv_bind H. rename a into m1.
    apply add_weight_inv in Ha. destruct Ha as (K1 & G1 & J1 & H1 & A1 & B1).
    apply IH in H. destruct H as (K2 & G2 & J2 & H2 & E2).
    split; [congruence|]. split; [|split; [|split]].
    + intros k. rewrite G2, G1, option_map_compose. reflexivity.
    + rewrite J2, J1, <- app_assoc, <- filter_app. reflexivity.
    + rewrite H2, H1, <- app_assoc, <- map_app, <- filter_app. reflexivity.
    + intros w' [<-|Hin].
      * split; apply dict_get_in_keys; assumption.
      * rewrite <- K1. apply E2. assumption.
Qed.

(** Conversely the second loop succeeds when every index is a key. *)
Lemma add_weights_total (ws : list (Z * Z * Z)) (m : Model) :
  (forall w, In w ws ->
     In (fst (fst w)) (dict_keys (nodes m)) /\ In (snd (fst w)) (dict_keys (nodes m))) ->
  exists m', for_each add_weight ws m = Ok m'.
Proof.
  revert m. induction ws as [|w ws IH]; intros m Hin; simpl; [eauto|].
  destruct (Hin w (or_introl eq_refl)) as [Ha Hb].
  apply dict_get_in_keys in Ha, Hb.
  assert (Hstep : exists m1, add_weight m w = Ok m1
                             /\ dict_keys (nodes m1) = dict_keys (nodes m)).
  { destruct w as [[w0 w1] w2]. simpl in Ha, Hb. unfold add_weight.
    destruct (dict_get (nodes m) w0) as [n0|] eqn:E0; [|congruence].
    destruct (dict_get (nodes m) w1) as [n1|] eqn:E1; [|congruence].
    destruct (w0 =? w1) eqn:E01; simpl.
    - erewrite call_on_ok by eassumption. simpl. eexists; split; [reflexivity|].
      simpl. apply dict_set_present; congruence.
    - erewrite call_on_ok by eassumption. simpl.
      erewrite call_on_ok by (rewrite dict_get_set, E01; eassumption). simpl.
      eexists; split; [reflexivity|]. simpl.
      rewrite dict_set_present by (rewrite dict_get_set, E01; congruence).
      apply dict_set_present; congruence. }
  destruct Hstep as (m1 & -> & K1). simpl. apply IH.
  intros w' Hw'. rewrite K1. apply Hin. right. assumption.
Qed.

Lemma apply_weights_node (k : Z) (ws : list (Z * Z * Z)) (nd : Node) :
  spin (fold_left (apply_weight k) ws nd) = spin nd
  /\ Jn (fold_left (apply_weight k) ws nd) = Jn nd ++ incident k ws
  /\ h (fold_left (apply_weight k) ws nd) = last_field k ws (h nd).
Proof.
  revert nd. induction ws as [|[[w0 w1] w2] ws IH]; intros nd.
  - simpl. rewrite app_nil_r. auto.
  - cbn [fold_left]. destruct (IH (apply_weight k nd (w0, w1, w2))) as (S1 & J1 & F1).
    rewrite S1, J1, F1. unfold last_field, incident. cbn [fold_left flat_map].
    unfold apply_weight.
    destruct (w0 =? w1), (w0 =? k), (w1 =? k); simpl;
      rewrite <- ?app_assoc; simpl; auto.
Qed.

Lemma incident_endpoint (k : Z) (ws : list (Z * Z * Z)) (p : Z * Z) :
  In p (incident k ws) ->
  exists w, In w ws /\ (fst p = fst (fst w) \/ fst p = snd (fst w)).
Proof.
  unfold incident. rewrite in_flat_map. intros ([[w0 w1] w2] & Hw & Hp).
  exists (w0, w1, w2). split; [assumption|]. simpl.
  destruct (w0 =? w1); [contradiction|].
  apply in_app_or in Hp. destruct Hp as [Hp|Hp].
  - destruct (w0 =? k); [|contradiction]. destruct Hp as [<-|[]]. auto.
  - destruct (w1 =? k); [|contradiction]. destruct Hp as [<-|[]]. auto.
Qed.

(** What a successful construction leaves behind. *)
Lemma Model_init_inv rng node_qty weights c m c' :
  Model_init rng node_qty weights c = Ok (m, c') ->
  c' = (c + Z.to_nat node_qty)%nat
  /\ dict_keys (nodes m) = range node_qty
  /\ (forall k nd, dict_get (nodes m) k = Some nd ->
        (spin nd = 1 \/ spin nd = -1)
        /\ Jn nd = incident k weights
        /\ h nd = last_field k weights 0)
  /\ Js m = filter is_edge weights
  /\ hs m = map field_of (filter is_field weights)
  /\ (forall w, In w weights ->
        In (fst (fst w)) (range node_qty) /\ In (snd (fst w)) (range node_qty)).
Proof.
  unfold Model_init, range. rewrite create_loop. simpl. intros H.
  inv_bind H. injection H as <- <-.
  apply add_weights_inv in Ha. simpl in Ha.
  destruct Ha as (K & G & J & F & E).
  rewrite initial_nodes_keys in K, E.
  repeat split; try assumption; try (apply E; assumption).
  - rewrite G in H.
    destruct (dict_get (initial_nodes rng c (Z.to_nat node_qty)) k) as [nd0|] eqn:E0;
      [|discriminate].
    injection H as <-. apply initial_nodes_get in E0.
    destruct (apply_weights_node k weights nd0) as (S1 & _). rewrite S1. tauto.
  - rewrite G in H.
    destruct (dict_get (initial_nodes rng c (Z.to_nat node_qty)) k) as [nd0|] eqn:E0;
      [|discriminate].
    injection H as <-. apply initial_nodes_get in E0.
    destruct (apply_weights_node k weights nd0) as (_ & J1 & _). rewrite J1.
    destruct E0 as (_ & _ & ->). reflexivity.
  - rewrite G in H.
    destruct (dict_get (initial_nodes rng c (Z.to_nat node_qty)) k) as [nd0|] eqn:E0;
      [|discriminate].
    injection H as <-. apply initial_nodes_get in E0.
    destruct (apply_weights_node k weights nd0) as (_ & _ & F1). rewrite F1.
    destruct E0 as (_ & -> & _). reflexivity.
Qed.

(** Construction succeeds when every index of every triple is a node. *)
Lemma Model_init_total rng node_qty weights c :
  (forall w, In w weights ->
     0 <= fst (fst w) < node_qty /\ 0 <= snd (fst w) < node_qty) ->
  exists m, Model_init rng node_qty weights c = Ok (m, (c + Z.to_nat node_qty)%nat).
Proof.
  intros Hin. unfold Model_init, range. rewrite create_loop. simpl.
  destruct (add_weights_total weights
              {| nodes := initial_nodes rng c (Z.to_nat node_qty); Js := []; hs := [] |})
    as (m & Hm).
  - intros w Hw. simpl. rewrite initial_nodes_keys.
    fold (range node_qty). rewrite !in_range. auto.
  - rewrite Hm. simpl. eauto.
Qed.

Lemma Model_init_establishes_inv rng node_qty weights c m c' :
  Model_init rng node_qty weights c = Ok (m, c') ->
  inv node_qty (nodes m).
Proof.
  intros H. apply Model_init_inv in H.
  destruct H as (_ & K & N & _ & _ & E). repeat split.
  - assumption.
  - intros k nd p Hk Hp. apply N in Hk. destruct Hk as (_ & HJ & _).
    rewrite HJ in Hp. apply incident_endpoint in Hp.
    destruct Hp as (w & Hw & Hfst). apply E in Hw.
    apply dict_get_in_keys. rewrite K. destruct Hfst as [-> | ->]; tauto.
  - intros k nd Hk. apply N in Hk. tauto.
Qed.

(** ** Couplings *)

Lemma count_occ_filter_edge (ws : list (Z * Z * Z)) (e : Z * Z * Z) :
  is_edge e = true ->
  count_occ triple_eq_dec (filter is_edge ws) e = count_occ triple_eq_dec ws e.
Proof.
  intros He. induction ws as [|w ws IH]; [reflexivity|].
  simpl. destruct (triple_eq_dec w e) as [->|Hne].
  - rewrite He. simpl. destruct (triple_eq_dec e e); congruence.
  - destruct (is_edge w); [simpl; destruct (triple_eq_dec w e); congruence | assumption].
Qed.

Lemma count_occ_incident (ws : list (Z * Z * Z)) (a b w : Z) :
  a <> b ->
  (count_occ triple_eq_dec ws (a, b, w) <= count_occ pair_eq_dec (incident a ws) (b, w))%nat
  /\ (count_occ triple_eq_dec ws (a, b, w) <= count_occ pair_eq_dec (incident b ws) (a, w))%nat.
Proof.
  intros Hab. induction ws as [|[[w0 w1] w2] ws [IHa IHb]]; [simpl; lia|].
  unfold incident in *. cbn [flat_map]. rewrite !count_occ_app.
  cbn [count_occ]. destruct (triple_eq_dec (w0, w1, w2) (a, b, w)) as [[= -> -> ->]|Hne].
  - apply Z.eqb_neq in Hab. rewrite Hab, !Z.eqb_refl, (Z.eqb_sym b a), Hab.
    cbn [app count_occ].
    destruct (pair_eq_dec (b, w) (b, w)); [|congruence].
    destruct (pair_eq_dec (a, w) (a, w)); [|congruence]. lia.
  - lia.
Qed.

(** C6: after a successful construction every triple (a, b, w) with a <> b
    of the input has put (b, w) into node a's coupling list, (a, w) into node
    b's coupling list and (a, b, w) into the edge list.  Nothing is
    deduplicated: the edge list is the input restricted to the triples with
    distinct endpoints, in input order, and a triple given n times occurs n
    times in the edge list and at least n times in each endpoint's list. *)
Theorem Model_init_couplings rng node_qty weights c m c' :
  Model_init rng node_qty weights c = Ok (m, c') ->
  (forall a b w, In (a, b, w) weights -> a <> b ->
     exists na nb,
       dict_get (getNodes m) a = Some na /\ dict_get (getNodes m) b = Some nb
       /\ In (b, w) (getJn na) /\ In (a, w) (getJn nb)
       /\ In (a, b, w) (getJs m)
       /\ count_occ triple_eq_dec (getJs m) (a, b, w)
          = count_occ triple_eq_dec weights (a, b, w)
       /\ (count_occ triple_eq_dec weights (a, b, w)
           <= count_occ pair_eq_dec (getJn na) (b, w))%nat
       /\ (count_occ triple_eq_dec weights (a, b, w)
           <= count_occ pair_eq_dec (getJn nb) (a, w))%nat)
  /\ getJs m = filter is_edge weights
  /\ (forall k nd, dict_get (getNodes m) k = Some nd -> getJn nd = incident k weights).
Proof.
  intros H. apply Model_init_inv in H.
  destruct H as (_ & K & N & J & _ & E). unfold getNodes, getJn, getJs.
  split; [|split; [assumption | intros k nd Hk; apply N; assumption]].
  intros a b w Hin Hab.
  destruct (E _ Hin) as [Ha Hb]. simpl in Ha, Hb.
  rewrite <- K in Ha, Hb. apply dict_get_in_keys in Ha, Hb.
  destruct (dict_get (nodes m) a) as [na|] eqn:Ea; [|congruence].
  destruct (dict_get (nodes m) b) as [nb|] eqn:Eb; [|congruence].
  exists na, nb. destruct (N _ _ Ea) as (_ & Ja & _). destruct (N _ _ Eb) as (_ & Jb & _).
  rewrite Ja, Jb, J.
  assert (Hedge : is_edge (a, b, w) = true).
  { unfold is_edge. simpl. apply negb_true_iff, Z.eqb_neq. assumption. }
  destruct (count_occ_incident weights a b w Hab) as [Ca Cb].
  assert (Hpos : (0 < count_occ triple_eq_dec weights (a, b, w))%nat).
  { apply count_occ_In. assumption. }
  repeat split; try assumption.
  - apply (count_occ_In pair_eq_dec). lia.
  - apply (count_occ_In pair_eq_dec). lia.
  - apply filter_In. auto.
  - apply count_occ_filter_edge. assumption.
Qed.

Example Model_init_duplicate_couplings :
  exists m, Model_init rng0 2 [(0, 1, 4); (0, 1, 4); (1, 1, 9)] 0 = Ok (m, 2%nat)
            /\ getJs m = [(0, 1, 4); (0, 1, 4)]
            /\ option_map getJn (dict_get (getNodes m) 0) = Some [(1, 4); (1, 4)]
            /\ option_map getJn (dict_get (getNodes m) 1) = Some [(0, 4); (0, 4)].
Proof. eexists. repeat split. Qed.

Example Model_init_bad_index :
  Model_init rng0 2 [(0, 2, 4)] 0 = Raise (KeyError 2).
Proof. reflexivity. Qed.

Example Model_init_negative_index :
  Model_init rng0 2 [(-1, 0, 4)] 0 = Raise (KeyError (-1)).
Proof. reflexivity. Qed.

Lemma Model_init_couplings_witness :
  exists m,
    Model_init rng0 2 [(0, 1, 4); (0, 1, 4); (1, 1, 9)] 0 = Ok (m, 2%nat)
    /\ getJs m = filter is_edge [(0, 1, 4); (0, 1, 4); (1, 1, 9)].
Proof.
  eexists. split; [reflexivity|].
  refine (proj1 (proj2 (Model_init_couplings rng0 2 [(0, 1, 4); (0, 1, 4); (1, 1, 9)]
                          0%nat _ 2%nat _))).
  reflexivity.
Defined.

(** ** Fields *)

Lemma last_field_app (k : Z) (l1 l2 : list (Z * Z * Z)) (h0 : Z) :
  last_field k (l1 ++ l2) h0 = last_field k l2 (last_field k l1 h0).
Proof. unfold last_field. apply fold_left_app. Qed.

Lemma last_field_self_loop (k : Z) (l : list (Z * Z * Z)) (w h0 : Z) :
  last_field k ((k, k, w) :: l) h0 = last_field k l w.
Proof. unfold last_field. simpl. rewrite Z.eqb_refl. reflexivity. Qed.

Lemma last_field_untouched (k : Z) (l : list (Z * Z * Z)) (h0 : Z) :
  (forall w, ~ In (k, k, w) l) -> last_field k l h0 = h0.
Proof.
  revert h0. induction l as [|[[w0 w1] w2] l IH]; intros h0 Hno; [reflexivity|].
  unfold last_field. cbn [fold_left].
  destruct ((w0 =? w1) && (w0 =? k)) eqn:E.
  - apply andb_true_iff in E. destruct E as [E1 E2].
    apply Z.eqb_eq in E1, E2. subst. exfalso. apply (Hno w2). left. reflexivity.
  - apply IH. intros w Hin. apply (Hno w). right. assumption.
Qed.

(** C7: when the triple list holds the self-loop (n, n, w1) and later the
    self-loop (n, n, w2), and no further self-loop on n after that, the
    constructed node n has field weight w2: the second write replaces the
    first, the two weights are not added. *)
Theorem Model_init_field_last_write_wins rng node_qty l1 l2 l3 n w1 w2 c m c' :
  Model_init rng node_qty (l1 ++ (n, n, w1) :: l2 ++ (n, n, w2) :: l3) c = Ok (m, c') ->
  (forall w, ~ In (n, n, w) l3) ->
  exists nd, dict_get (getNodes m) n = Some nd /\ geth nd = w2.
Proof.
  intros H Hno. apply Model_init_inv in H.
  destruct H as (_ & K & N & _ & _ & E). unfold getNodes, geth.
  assert (Hin : In n (range node_qty)).
  { apply (E (n, n, w1)). apply in_or_app. right. left. reflexivity. }
  rewrite <- K in Hin. apply dict_get_in_keys in Hin.
  destruct (dict_get (nodes m) n) as [nd|] eqn:En; [|congruence].
  exists nd. split; [reflexivity|].
  destruct (N _ _ En) as (_ & _ & ->).
  rewrite last_field_app, last_field_self_loop, last_field_app, last_field_self_loop.
  apply last_field_untouched. assumption.
Qed.

Lemma Model_init_field_last_write_wins_witness :
  exists nd,
    dict_get (getNodes {| nodes := [(0, mkNode (-1) 0 []); (1, mkNode 1 7 [])];
                          Js := []; hs := [(1, 5); (1, 7)] |}) 1 = Some nd
    /\ geth nd = 7.
Proof.
  apply (Model_init_field_last_write_wins rng0 2 [] [] [] 1 5 7 1%nat _ 3%nat).
  - reflexivity.
  - intros w [].
Defined.

Example Model_init_two_self_loops :
  option_map geth
    (dict_get (getNodes (mkModel [(0, mkNode (-1) 0 []); (1, mkNode 1 7 [])] []
                                 [(1, 5); (1, 7)])) 1) = Some 7
  /\ Model_init rng0 2 [(1, 1, 5); (1, 1, 7)] 1
     = Ok (mkModel [(0, mkNode (-1) 0 []); (1, mkNode 1 7 [])] [] [(1, 5); (1, 7)], 3%nat).
Proof. split; reflexivity. Qed.

(** ** update: a single trial *)

Lemma randint_in_range rng c node_qty :
  1 <= node_qty ->
  exists n, randint rng c 0 (node_qty - 1) = Ok n /\ 0 <= n < node_qty.
Proof.
  intros Hq. unfold randint.
  destruct (node_qty - 1 <? 0) eqn:E; [apply Z.ltb_lt in E; lia|].
  eexists. split; [reflexivity|].
  pose proof (Z.mod_pos_bound (randint_at rng c) (node_qty - 1 - 0 + 1) ltac:(lia)).
  lia.
Qed.

(** *** math.exp(2*E/T) *)

Lemma boltzmann_overflow fl (E : Z) (T : R) :
  2 ^ 1024 <= Z.abs (2 * E) -> boltzmann fl E T = Raise OverflowError.
Proof.
  intros H. unfold boltzmann. rewrite (float_of_int_overflow fl _ H). reflexivity.
Qed.

Lemma boltzmann_error fl (E : Z) (T : R) e :
  boltzmann fl E T = Raise e ->
  e = OverflowError \/ (e = ZeroDivisionError /\ T = 0%R).
Proof.
  unfold boltzmann. destruct (float_of_int fl (2 * E)) as [x|].
  - destruct (Req_dec_T T 0) as [HT|HT].
    + intros [= <-]. auto.
    + destruct (fexp fl (fdiv fl x T)); [discriminate|]. intros [= <-]. auto.
  - intros [= <-]. auto.
Qed.

Lemma boltzmann_zero_T fl (E : Z) :
  (exists e, boltzmann fl E 0 = Raise e)
  /\ (Z.abs (2 * E) <= DBL_MAX -> boltzmann fl E 0 = Raise ZeroDivisionError).
Proof.
  unfold boltzmann. split.
  - destruct (float_of_int fl (2 * E)); [|eauto].
    destruct (Req_dec_T 0 0); [eauto | congruence].
  - intros H. destruct (float_of_int_in_range fl _ H) as (x & ->).
    destruct (Req_dec_T 0 0); [reflexivity | congruence].
Qed.

Lemma boltzmann_pos_T fl (E : Z) (T : R) :
  E <= 0 -> (0 < T)%R -> Z.abs (2 * E) <= DBL_MAX ->
  exists p, boltzmann fl E T = Ok (Fin p) /\ (0 <= p <= 1)%R.
Proof.
  intros HE HT Hrange. unfold boltzmann.
  destruct (float_of_int_in_range fl _ Hrange) as (x & Hx). rewrite Hx.
  destruct (Req_dec_T T 0) as [H0|_]; [lra|].
  assert (Hsign : (x <= 0)%R) by (apply (float_of_int_sign fl _ _ Hx); lia).
  destruct (fexp_nonpos fl _ (fdiv_pos fl x T Hsign HT)) as (p & -> & Hp).
  eauto.
Qed.

Lemma boltzmann_zero_E fl (T : R) :
  T <> 0%R -> boltzmann fl 0 T = Ok (Fin 1).
Proof.
  intros HT. unfold boltzmann. change (2 * 0) with 0.
  assert (H0 : Z.abs 0 <= DBL_MAX) by (vm_compute; discriminate).
  destruct (float_of_int_in_range fl _ H0) as (x & Hx). rewrite Hx.
  destruct (float_of_int_sign fl _ _ Hx) as [Hle Hge].
  assert (Hz : x = 0%R) by (apply Rle_antisym; [apply Hle | apply Hge]; lia).
  subst x. destruct (Req_dec_T T 0) as [H|_]; [contradiction|].
  rewrite (fdiv_zero fl T HT), (fexp_zero fl). reflexivity.
Qed.



(** In the arithmetic of the examples. *)
Lemma real_floats_boltzmann (E : Z) (T : R) :
  Z.abs (2 * E) < 2 ^ 1024 -> T <> 0%R ->
  (-746 <= IZR (2 * E) / T <= 709)%R ->
  boltzmann real_floats E T = Ok (Fin (exp (IZR (2 * E) / T))).
Proof.
  intros Hrange HT Hexp. unfold boltzmann. cbn [float_of_int fdiv fexp real_floats].
  destruct (2 ^ 1024 <=? Z.abs (2 * E)) eqn:Eo; [apply Z.leb_le in Eo; lia|].
  destruct (Req_dec_T T 0) as [H|_]; [contradiction|].
  destruct (Rlt_dec (IZR (2 * E) / T) (-746)) as [Hu|_]; [exfalso; lra|].
  destruct (Rle_dec (IZR (2 * E) / T) 709) as [_|Hn]; [reflexivity | exfalso; lra].
Qed.


Section Trial.

Variable fl : Floats.
Variable rng : Random.
Variable node_qty : Z.
Variable T : R.
Variables (d : dict) (c : nat) (n : Z) (self : Node) (E : Z).
Hypothesis Hn : randint rng c 0 (node_qty - 1) = Ok n.
Hypothesis Hself : dict_get d n = Some self.
Hypothesis HE : getE self d = Ok E.

Let flipped : dict := dict_set d n (switchSpin self).

Lemma trial_pos :
  0 < E -> trial fl rng node_qty T (d, c) = Ok (flipped, S c).
Proof.
  intros Hpos. unfold trial. rewrite Hn. simpl.
  unfold getitem at 1. rewrite Hself. simpl. rewrite HE. simpl.
  apply Z.ltb_lt in Hpos. rewrite Hpos.
  rewrite (call_on_ok d n switchSpin self Hself). reflexivity.
Qed.

Lemma trial_nonpos (p : fval) :
  E <= 0 -> boltzmann fl E T = Ok p ->
  trial fl rng node_qty T (d, c)
  = Ok (if below (random rng (S c)) p then flipped else d, S (S c)).
Proof.
  intros Hle Hp. unfold trial. rewrite Hn. simpl.
  unfold getitem at 1. rewrite Hself. simpl. rewrite HE. simpl.
  destruct (0 <? E) eqn:E1; [apply Z.ltb_lt in E1; lia|].
  apply Z.leb_le in Hle. rewrite Hle, Hp. simpl.
  destruct (below (random rng (S c)) p); [|reflexivity].
  rewrite (call_on_ok d n switchSpin self Hself). reflexivity.
Qed.

Lemma trial_nonpos_raise (e : exn) :
  E <= 0 -> boltzmann fl E T = Raise e -> trial fl rng node_qty T (d, c) = Raise e.
Proof.
  intros Hle He. unfold trial. rewrite Hn. simpl.
  unfold getitem at 1. rewrite Hself. simpl. rewrite HE. simpl.
  destruct (0 <? E) eqn:E1; [apply Z.ltb_lt in E1; lia|].
  apply Z.leb_le in Hle. rewrite Hle, He. reflexivity.
Qed.

Lemma trial_result (d' : dict) (c' : nat) :
  trial fl rng node_qty T (d, c) = Ok (d', c') -> d' = d \/ d' = flipped.
Proof.
  destruct (Z_lt_le_dec 0 E) as [Hpos|Hle].
  - rewrite trial_pos by assumption. intros [= <- <-]. auto.
  - destruct (boltzmann fl E T) as [p|e] eqn:Hb.
    + rewrite (trial_nonpos p Hle Hb).
      destruct (below _ _); intros [= <- <-]; auto.
    + rewrite (trial_nonpos_raise e Hle Hb). discriminate.
Qed.

Lemma flipped_get (k : Z) :
  dict_get flipped k = if n =? k then Some (switchSpin self) else dict_get d k.
Proof. apply dict_get_set. Qed.

End Trial.

Lemma trial_inversion fl rng node_qty T d c d' c' :
  trial fl rng node_qty T (d, c) = Ok (d', c') ->
  exists n self E,
    randint rng c 0 (node_qty - 1) = Ok n
    /\ dict_get d n = Some self
    /\ getE self d = Ok E
    /\ (d' = d \/ d' = dict_set d n (switchSpin self)).
Proof.
  intros H. pose proof H as H0. unfold trial in H.
  inv_bind H. rename a into n. inv_bind H. rename a into self.
  inv_bind H. rename a into E. apply getitem_ok in Ha0.
  exists n, self, E. repeat split; try assumption.
  eapply trial_result; eassumption.
Qed.






(** ** Invariant of a run *)

Lemma flip_inv node_qty d n self :
  inv node_qty d -> dict_get d n = Some self ->
  inv node_qty (dict_set d n (switchSpin self)).
Proof.
  intros (K & C & S) Hn. repeat split.
  - rewrite dict_set_present by congruence. assumption.
  - intros k nd p Hk Hp. rewrite dict_get_set in *.
    assert (Hd : dict_get d (fst p) <> None).
    { destruct (n =? k) eqn:Enk.
      - apply Z.eqb_eq in Enk; subst k. injection Hk as <-.
        apply (C n self p); assumption.
      - apply (C k nd p); assumption. }
    destruct (n =? fst p); congruence.
  - intros k nd Hk. rewrite dict_get_set in Hk.
    destruct (n =? k) eqn:Enk.
    + injection Hk as <-. simpl. destruct (S n self Hn) as [-> | ->]; auto.
    + apply (S k nd Hk).
Qed.

Lemma trial_inv fl rng node_qty T d c d' c' :
  inv node_qty d -> trial fl rng node_qty T (d, c) = Ok (d', c') -> inv node_qty d'.
Proof.
  intros Hinv H. apply trial_inversion in H.
  destruct H as (n & self & E & _ & Hself & _ & [-> | ->]); [assumption|].
  apply flip_inv; assumption.
Qed.

Lemma inv_getE node_qty d n self :
  inv node_qty d -> dict_get d n = Some self ->
  getE self d = Ok (local_energy_spec self d).
Proof.
  intros (_ & C & _) Hn. unfold getE. rewrite getE_loop; [reflexivity|].
  intros p Hp. apply (C n self p); assumption.
Qed.

Lemma inv_has_key node_qty d k :
  inv node_qty d -> 0 <= k < node_qty -> exists nd, dict_get d k = Some nd.
Proof.
  intros (K & _ & _) Hk. apply in_range in Hk. rewrite <- K in Hk.
  apply dict_get_in_keys in Hk. destruct (dict_get d k); [eauto | congruence].
Qed.

Lemma abs_term_bound (f w s sj : Z) :
  (s = 1 \/ s = -1) -> (sj = 1 \/ sj = -1) ->
  Z.abs (f * s + w * s * sj) <= Z.abs f + Z.abs w.
Proof. intros [-> | ->] [-> | ->]; lia. Qed.

Lemma zsum_abs_bound {A} (f g : A -> Z) (l : list A) :
  (forall a, In a l -> Z.abs (f a) <= g a) ->
  Z.abs (zsum (map f l)) <= zsum (map g l).
Proof.
  induction l as [|a l IH]; intros H; [simpl; lia|].
  cbn [map zsum fold_right]. fold (zsum (map f l)). fold (zsum (map g l)).
  pose proof (H a (or_introl eq_refl)).
  pose proof (IH (fun b Hb => H b (or_intror Hb))). lia.
Qed.

(** Spins being +1 or -1, a local energy is bounded by [energy_bound]. *)
Lemma local_energy_bounded node_qty d n self :
  inv node_qty d -> dict_get d n = Some self ->
  Z.abs (local_energy_spec self d) <= energy_bound self.
Proof.
  intros (_ & C & S) Hn. unfold local_energy_spec, energy_bound.
  rewrite Z.abs_opp. apply zsum_abs_bound. intros p Hp.
  apply abs_term_bound; [apply (S n self Hn)|].
  pose proof (C n self p Hn Hp) as Hnb. unfold spin_of.
  destruct (dict_get d (fst p)) as [nb|] eqn:Eb; [|congruence].
  apply (S (fst p) nb Eb).
Qed.

Lemma float_safeb_sound (d : dict) : float_safeb d = true -> float_safe d.
Proof.
  unfold float_safeb. rewrite forallb_forall. intros H k nd Hk.
  apply dict_get_in in Hk. apply H in Hk. apply Z.leb_le in Hk. exact Hk.
Qed.

Lemma flip_float_safe d n self :
  float_safe d -> dict_get d n = Some self ->
  float_safe (dict_set d n (switchSpin self)).
Proof.
  intros Hsafe Hn k nd Hk. rewrite dict_get_set in Hk.
  destruct (n =? k).
  - injection Hk as <-. exact (Hsafe n self Hn).
  - exact (Hsafe k nd Hk).
Qed.

Lemma trial_float_safe fl rng node_qty T d c d' c' :
  float_safe d -> trial fl rng node_qty T (d, c) = Ok (d', c') -> float_safe d'.
Proof.
  intros Hsafe H. apply trial_inversion in H.
  destruct H as (n & self & E & _ & Hself & _ & [-> | ->]); [assumption|].
  apply flip_float_safe; assumption.
Qed.

(** With a positive temperature and local energies within the range of
    floats, a trial on a well-shaped dictionary never raises. *)
Lemma trial_total fl rng node_qty T d c :
  inv node_qty d -> float_safe d -> 1 <= node_qty -> (0 < T)%R ->
  exists st', trial fl rng node_qty T (d, c) = Ok st'.
Proof.
  intros Hinv Hsafe Hq HT.
  destruct (randint_in_range rng c node_qty Hq) as (n & Hn & Hrange).
  destruct (inv_has_key node_qty d n Hinv Hrange) as (self & Hself).
  pose proof (inv_getE node_qty d n self Hinv Hself) as HE.
  destruct (Z_lt_le_dec 0 (local_energy_spec self d)) as [Hpos|Hle].
  - eexists. exact (trial_pos fl rng node_qty T d c n self _ Hn Hself HE Hpos).
  - assert (Hrange2 : Z.abs (2 * local_energy_spec self d) <= DBL_MAX).
    { pose proof (local_energy_bounded node_qty d n self Hinv Hself).
      pose proof (Hsafe n self Hself). lia. }
    destruct (boltzmann_pos_T fl _ T Hle HT Hrange2) as (p & Hp & _).
    eexists. exact (trial_nonpos fl rng node_qty T d c n self _ Hn Hself HE (Fin p) Hle Hp).
Qed.

Lemma reachable_trans fl rng node_qty T st1 st2 st3 :
  reachable fl rng node_qty T st1 st2 -> reachable fl rng node_qty T st2 st3 ->
  reachable fl rng node_qty T st1 st3.
Proof.
  intros H12 H23. induction H23; [assumption|].
  eapply reach_trial; eassumption.
Qed.

Lemma reachable_inv fl rng node_qty T st st' :
  inv node_qty (fst st) -> reachable fl rng node_qty T st st' -> inv node_qty (fst st').
Proof.
  intros Hinv H. induction H as [|[d1 c1] [d2 c2] _ IH Ht]; [assumption|].
  simpl in *. eapply trial_inv; eassumption.
Qed.

Lemma trials_reachable fl rng node_qty T k st st' :
  repeat_n k (trial fl rng node_qty T) st = Ok st' -> reachable fl rng node_qty T st st'.
Proof.
  revert st. induction k as [|k IH]; intros st H; simpl in H.
  - injection H as <-. apply reach_refl.
  - inv_bind H. apply IH in H.
    eapply reachable_trans; [|exact H].
    eapply reach_trial; [apply reach_refl | assumption].
Qed.

Lemma reachable_float_safe fl rng node_qty T st st' :
  float_safe (fst st) -> reachable fl rng node_qty T st st' -> float_safe (fst st').
Proof.
  intros Hsafe H. induction H as [|[d1 c1] [d2 c2] _ IH Ht]; [assumption|].
  cbn [fst] in *. eapply trial_float_safe; eassumption.
Qed.

Lemma trials_total fl rng node_qty T k st :
  inv node_qty (fst st) -> float_safe (fst st) -> 1 <= node_qty -> (0 < T)%R ->
  exists st', repeat_n k (trial fl rng node_qty T) st = Ok st'.
Proof.
  intros Hinv Hsafe Hq HT. revert st Hinv Hsafe.
  induction k as [|k IH]; intros [d c] Hinv Hsafe; cbn [repeat_n]; [eauto|].
  destruct (trial_total fl rng node_qty T d c Hinv Hsafe Hq HT) as ([d1 c1] & H1).
  rewrite H1. cbn [bind]. cbn [fst] in *. apply IH; cbn [fst].
  - eapply trial_inv; eassumption.
  - eapply trial_float_safe; eassumption.
Qed.

(** ** update and the iteration loop *)

Lemma update_reachable fl rng node_qty T st st' :
  update fl rng node_qty T st = Ok st' -> reachable fl rng node_qty T st st'.
Proof. apply trials_reachable. Qed.

Lemma update_total fl rng node_qty T st :
  inv node_qty (fst st) -> float_safe (fst st) -> (0 < T)%R ->
  exists st', update fl rng node_qty T st = Ok st'.
Proof.
  intros Hinv Hsafe HT. unfold update.
  destruct (Z_lt_le_dec node_qty 1) as [Hsmall|Hq].
  - replace (Z.to_nat node_qty) with 0%nat by lia. simpl. eauto.
  - apply trials_total; assumption.
Qed.

Lemma sweeps_reachable fl rng node_qty T k st st' :
  repeat_n k (update fl rng node_qty T) st = Ok st' -> reachable fl rng node_qty T st st'.
Proof.
  revert st. induction k as [|k IH]; intros st H; simpl in H.
  - injection H as <-. apply reach_refl.
  - inv_bind H. apply IH in H. apply update_reachable in Ha.
    eapply reachable_trans; eassumption.
Qed.

Lemma sweeps_total fl rng node_qty T k st :
  inv node_qty (fst st) -> float_safe (fst st) -> (0 < T)%R ->
  exists st', repeat_n k (update fl rng node_qty T) st = Ok st'.
Proof.
  intros Hinv Hsafe HT. revert st Hinv Hsafe.
  induction k as [|k IH]; intros st Hinv Hsafe; cbn [repeat_n]; [eauto|].
  destruct (update_total fl rng node_qty T st Hinv Hsafe HT) as (st1 & H1).
  rewrite H1. cbn [bind]. apply update_reachable in H1. apply IH.
  - eapply reachable_inv; eassumption.
  - eapply reachable_float_safe; eassumption.
Qed.

(** ** modelE *)

Lemma edge_loop (d : dict) (edges : list (Z * Z * Z)) (acc : Z) :
  (forall e, In e edges ->
     dict_get d (fst (fst e)) <> None /\ dict_get d (snd (fst e)) <> None) ->
  for_each (edge_step d) edges acc
  = Ok (acc + zsum (map (fun e => spin_of d (fst (fst e)) * spin_of d (snd (fst e)) * snd e)
                        edges)).
Proof.
  revert acc. induction edges as [|[[a b] w] edges IH]; intros acc Hin.
  - simpl. f_equal. lia.
  - destruct (Hin (a, b, w) (or_introl eq_refl)) as [Ha Hb]. simpl in Ha, Hb.
    cbn [for_each]. unfold edge_step at 1, getitem, spin_of.
    destruct (dict_get d a) as [na|] eqn:Ea; [|congruence].
    destruct (dict_get d b) as [nb|] eqn:Eb; [|congruence].
    cbn [bind]. rewrite IH by (intros e He; apply Hin; right; assumption).
    f_equal. cbn [map zsum fold_right fst snd]. unfold spin_of, getSpin.
    rewrite Ea, Eb. unfold zsum. lia.
Qed.

Lemma field_loop (d : dict) (fields : list (Z * Z)) (acc : Z) :
  (forall f, In f fields -> dict_get d (fst f) <> None) ->
  for_each (field_step d) fields acc
  = Ok (acc + zsum (map (fun f => spin_of d (fst f) * snd f) fields)).
Proof.
  revert acc. induction fields as [|[a w] fields IH]; intros acc Hin.
  - simpl. f_equal. lia.
  - pose proof (Hin (a, w) (or_introl eq_refl)) as Ha. simpl in Ha.
    cbn [for_each]. unfold field_step at 1, getitem.
    cbn [fst snd]. destruct (dict_get d a) as [na|] eqn:Ea; [|congruence].
    cbn [bind]. rewrite IH by (intros e He; apply Hin; right; assumption).
    f_equal. cbn [map zsum fold_right fst snd]. unfold spin_of, getSpin.
    rewrite Ea. unfold zsum. lia.
Qed.

Lemma modelE_inv fl rng model node_qty I T st mE st' :
  modelE fl rng model node_qty I T st = Ok (mE, st') ->
  repeat_n (Z.to_nat I) (update fl rng node_qty T) st = Ok st'.
Proof.
  unfold modelE. intros H. inv_bind H. inv_bind H. inv_bind H.
  injection H as _ <-. assumption.
Qed.

(** The model and the dictionary fit together: every index of the edge and
    field lists is a key. *)
Lemma Model_init_lists rng node_qty weights c m c' :
  Model_init rng node_qty weights c = Ok (m, c') ->
  (forall e, In e (Js m) ->
     0 <= fst (fst e) < node_qty /\ 0 <= snd (fst e) < node_qty)
  /\ (forall f, In f (hs m) -> 0 <= fst f < node_qty).
Proof.
  intros H. apply Model_init_inv in H. destruct H as (_ & _ & _ & J & F & E).
  rewrite J, F. split.
  - intros e He. apply filter_In in He. destruct He as [He _].
    apply E in He. rewrite !in_range in He. assumption.
  - intros f Hf. apply in_map_iff in Hf. destruct Hf as (w & <- & Hw).
    apply filter_In in Hw. destruct Hw as [Hw _]. apply E in Hw.
    rewrite !in_range in Hw. simpl. tauto.
Qed.

Lemma inv_key_present node_qty d k :
  inv node_qty d -> 0 <= k < node_qty -> dict_get d k <> None.
Proof.
  intros Hinv Hk. destruct (inv_has_key node_qty d k Hinv Hk) as (nd & ->). discriminate.
Qed.

Lemma modelE_energy fl rng model node_qty I T st st' :
  repeat_n (Z.to_nat I) (update fl rng node_qty T) st = Ok st' ->
  inv node_qty (fst st') ->
  (forall e, In e (Js model) ->
     0 <= fst (fst e) < node_qty /\ 0 <= snd (fst e) < node_qty) ->
  (forall f, In f (hs model) -> 0 <= fst f < node_qty) ->
  modelE fl rng model node_qty I T st
  = Ok (total_energy_spec (Js model) (hs model) (fst st'), st').
Proof.
  intros Hrun Hinv HJ HF. unfold modelE. rewrite Hrun. cbn [bind].
  unfold getJs, geths. rewrite edge_loop.
  - cbn [bind]. rewrite field_loop.
    + cbn [bind]. unfold total_energy_spec. do 2 f_equal.
    + intros f Hf. eapply inv_key_present; eauto.
  - intros e He. destruct (HJ e He). split; eapply inv_key_present; eauto.
Qed.

(** C3 amended: for a constructed model in which twice the bound
    [energy_bound] of every node is within the range of floats, and a
    temperature [T > 0], [modelE] runs the [I] sweeps one after the other
    (each on the state the previous one left; none for [I <= 0]), none of
    them raises, and the value returned is the integer [-(sum over edges of
    spin[a]*spin[b]*w + sum over fields of spin[n]*w)] read off the final
    spins. *)
Theorem modelE_total_energy fl rng node_qty weights c m c' I T :
  Model_init rng node_qty weights c = Ok (m, c') ->
  float_safe (getNodes m) ->
  (0 < T)%R ->
  exists st',
    repeat_n (Z.to_nat I) (update fl rng node_qty T) (getNodes m, c') = Ok st'
    /\ modelE fl rng m node_qty I T (getNodes m, c')
       = Ok (total_energy_spec (getJs m) (geths m) (fst st'), st').
Proof.
  intros Hm Hsafe HT.
  pose proof (Model_init_establishes_inv _ _ _ _ _ _ Hm) as Hinv.
  destruct (Model_init_lists _ _ _ _ _ _ Hm) as [HJ HF].
  destruct (sweeps_total fl rng node_qty T (Z.to_nat I) (getNodes m, c') Hinv Hsafe HT)
    as (st' & Hrun).
  exists st'. split; [assumption|].
  apply modelE_energy; try assumption.
  apply (reachable_inv fl rng node_qty T (getNodes m, c') st' Hinv).
  eapply sweeps_reachable; exact Hrun.
Qed.

(** ** Spins *)

(** C5: from construction on, through every trial of every sweep, each
    stored spin is +1 or -1; this covers the state [modelE] ends in. *)
Theorem spin_always_plus_or_minus_one fl rng node_qty weights c m c' T :
  Model_init rng node_qty weights c = Ok (m, c') ->
  (forall st, reachable fl rng node_qty T (getNodes m, c') st ->
     forall k nd, dict_get (fst st) k = Some nd -> getSpin nd = 1 \/ getSpin nd = -1)
  /\ (forall I mE st, modelE fl rng m node_qty I T (getNodes m, c') = Ok (mE, st) ->
        forall k nd, dict_get (fst st) k = Some nd -> getSpin nd = 1 \/ getSpin nd = -1).
Proof.
  intros Hm. pose proof (Model_init_establishes_inv _ _ _ _ _ _ Hm) as Hinv.
  assert (Hreach : forall st, reachable fl rng node_qty T (getNodes m, c') st ->
            forall k nd, dict_get (fst st) k = Some nd -> getSpin nd = 1 \/ getSpin nd = -1).
  { intros st Hst k nd Hk.
    destruct (reachable_inv fl rng node_qty T (getNodes m, c') st Hinv Hst) as (_ & _ & S).
    apply (S k nd Hk). }
  split; [exact Hreach|].
  intros I mE st HE. apply Hreach.
  eapply sweeps_reachable. eapply modelE_inv. exact HE.
Qed.

Lemma modelE_total_energy_witness :
  exists st',
    repeat_n (Z.to_nat 3) (update real_floats rng0 2 1)
      (getNodes (mkModel [(0, mkNode 1 0 [(1, 1)]); (1, mkNode (-1) 0 [(0, 1)])]
                         [(0, 1, 1)] []), 2%nat) = Ok st'
    /\ modelE real_floats rng0 (mkModel [(0, mkNode 1 0 [(1, 1)]); (1, mkNode (-1) 0 [(0, 1)])]
                            [(0, 1, 1)] []) 2 3 1
         (getNodes (mkModel [(0, mkNode 1 0 [(1, 1)]); (1, mkNode (-1) 0 [(0, 1)])]
                            [(0, 1, 1)] []), 2%nat)
       = Ok (total_energy_spec
               (getJs (mkModel [(0, mkNode 1 0 [(1, 1)]); (1, mkNode (-1) 0 [(0, 1)])]
                               [(0, 1, 1)] []))
               (geths (mkModel [(0, mkNode 1 0 [(1, 1)]); (1, mkNode (-1) 0 [(0, 1)])]
                               [(0, 1, 1)] []))
               (fst st'), st').
Proof.
  exact (modelE_total_energy real_floats rng0 2 [(0, 1, 1)] 0%nat
           (mkModel [(0, mkNode 1 0 [(1, 1)]); (1, mkNode (-1) 0 [(0, 1)])] [(0, 1, 1)] [])
           2%nat 3 1%R eq_refl
           (float_safeb_sound
              (getNodes (mkModel [(0, mkNode 1 0 [(1, 1)]); (1, mkNode (-1) 0 [(0, 1)])]
                                 [(0, 1, 1)] [])) eq_refl)
           Rlt_0_1).
Defined.

(** The constructed two-node model, after a first trial that flips node 0. *)
Lemma spin_always_plus_or_minus_one_witness :
  Model_init rng0 2 [(0, 1, 1)] 0
  = Ok (mkModel [(0, mkNode 1 0 [(1, 1)]); (1, mkNode (-1) 0 [(0, 1)])] [(0, 1, 1)] [],
        2%nat)
  /\ trial real_floats rng0 2 1 ([(0, mkNode 1 0 [(1, 1)]); (1, mkNode (-1) 0 [(0, 1)])], 2%nat)
     = Ok ([(0, mkNode (-1) 0 [(1, 1)]); (1, mkNode (-1) 0 [(0, 1)])], 3%nat)
  /\ (getSpin (mkNode (-1) 0 [(1, 1)]) = 1 \/ getSpin (mkNode (-1) 0 [(1, 1)]) = -1).
Proof.
  assert (H1 : 0 < 1) by lia.
  assert (Ht : trial real_floats rng0 2 1 ([(0, mkNode 1 0 [(1, 1)]); (1, mkNode (-1) 0 [(0, 1)])], 2%nat)
               = Ok ([(0, mkNode (-1) 0 [(1, 1)]); (1, mkNode (-1) 0 [(0, 1)])], 3%nat)).
  { exact (trial_pos real_floats rng0 2 1 [(0, mkNode 1 0 [(1, 1)]); (1, mkNode (-1) 0 [(0, 1)])]
             2%nat 0 (mkNode 1 0 [(1, 1)]) 1 eq_refl eq_refl eq_refl H1). }
  split; [reflexivity|]. split; [exact Ht|].
  apply (proj1 (spin_always_plus_or_minus_one real_floats rng0 2 [(0, 1, 1)] 0%nat
                  (mkModel [(0, mkNode 1 0 [(1, 1)]); (1, mkNode (-1) 0 [(0, 1)])]
                           [(0, 1, 1)] [])
                  2%nat 1%R eq_refl)
               ([(0, mkNode (-1) 0 [(1, 1)]); (1, mkNode (-1) 0 [(0, 1)])], 3%nat)
               (reach_trial _ _ _ _ _ _ _ (reach_refl _ _ _ _ _) Ht) 0).
  reflexivity.
Defined.

(** The two-node model with one coupling of weight [w]: aligned spins give
    total energy [-w], anti-aligned spins give [+w]. *)
Example two_node_energy (w : Z) :
  total_energy_spec [(0, 1, w)] [] [(0, mkNode 1 0 [(1, w)]); (1, mkNode 1 0 [(0, w)])] = - w
  /\ total_energy_spec [(0, 1, w)] [] [(0, mkNode 1 0 [(1, w)]); (1, mkNode (-1) 0 [(0, w)])] = w.
Proof. unfold total_energy_spec, spin_of, zsum. cbn -[Z.mul Z.add Z.opp]. lia. Qed.

(** ** Temperatures that are not positive *)

Lemma update_first_trial_raises fl rng node_qty T d c e :
  1 <= node_qty -> trial fl rng node_qty T (d, c) = Raise e ->
  update fl rng node_qty T (d, c) = Raise e.
Proof.
  intros Hq Ht. unfold update.
  destruct (Z.to_nat node_qty) as [|k] eqn:Ek; [lia|].
  cbn [repeat_n]. rewrite Ht. reflexivity.
Qed.

Lemma modelE_first_sweep_raises fl rng model node_qty I T st e :
  1 <= I -> update fl rng node_qty T st = Raise e ->
  modelE fl rng model node_qty I T st = Raise e.
Proof.
  intros HI Hu. unfold modelE.
  destruct (Z.to_nat I) as [|k] eqn:Ek; [lia|].
  cbn [repeat_n]. rewrite Hu. reflexivity.
Qed.

Lemma repeat_n_raises {S} (body : S -> result S) (j k : nat) (st st_j : S) e :
  (j < k)%nat -> repeat_n j body st = Ok st_j -> body st_j = Raise e ->
  repeat_n k body st = Raise e.
Proof.
  revert k st. induction j as [|j IH]; intros k st Hjk Hj He.
  - injection Hj as ->. destruct k as [|k]; [lia|]. cbn [repeat_n]. rewrite He. reflexivity.
  - destruct k as [|k]; [lia|]. cbn [repeat_n] in *.
    destruct (body st) as [st1|e1]; cbn [bind] in *; [|discriminate].
    apply IH; [lia | assumption | assumption].
Qed.

(** A trial on a node of local energy 0 flips it at every temperature other
    than 0. *)
Lemma trial_zero_energy fl rng node_qty T d c n self :
  randint rng c 0 (node_qty - 1) = Ok n ->
  dict_get d n = Some self ->
  getE self d = Ok 0 ->
  T <> 0%R ->
  trial fl rng node_qty T (d, c) = Ok (dict_set d n (switchSpin self), S (S c)).
Proof.
  intros Hn Hself HE HT.
  assert (H0 : 0 <= 0) by lia.
  rewrite (trial_nonpos fl rng node_qty T d c n self 0 Hn Hself HE (Fin 1) H0
             (boltzmann_zero_E fl T HT)).
  cbn [below]. destruct (Rlt_dec (random rng (S c)) 1) as [_|Hno]; [reflexivity|].
  exfalso. apply Hno. apply random_at_range.
Qed.

(** At [T = 0] a trial on a node of local energy [<= 0] raises. *)
Lemma trial_zero_T fl rng node_qty d c n self E :
  randint rng c 0 (node_qty - 1) = Ok n ->
  dict_get d n = Some self ->
  getE self d = Ok E ->
  E <= 0 ->
  exists e,
    (e = ZeroDivisionError \/ e = OverflowError)
    /\ (Z.abs (2 * E) <= DBL_MAX -> e = ZeroDivisionError)
    /\ (2 ^ 1024 <= Z.abs (2 * E) -> e = OverflowError)
    /\ trial fl rng node_qty 0 (d, c) = Raise e.
Proof.
  intros Hn Hself HE Hle.
  destruct (boltzmann_zero_T fl E) as [(e & He) Hzero].
  exists e. split; [|split; [|split]].
  - destruct (boltzmann_error fl E 0 e He) as [-> | [-> _]]; auto.
  - intros Hrange. rewrite (Hzero Hrange) in He. congruence.
  - intros Hbig. rewrite (boltzmann_overflow fl E 0 Hbig) in He. congruence.
  - eapply trial_nonpos_raise; eassumption.
Qed.

(** At [T = 0] a trial returns only on a positive local energy. *)
Lemma trial_zero_T_returns fl rng node_qty d c st' :
  trial fl rng node_qty 0 (d, c) = Ok st' ->
  exists n self E,
    randint rng c 0 (node_qty - 1) = Ok n
    /\ dict_get d n = Some self
    /\ getE self d = Ok E
    /\ 0 < E
    /\ st' = (dict_set d n (switchSpin self), S c).
Proof.
  intros H. destruct st' as [d' c']. pose proof H as H0. apply trial_inversion in H0.
  destruct H0 as (n & self & E & Hn & Hself & HE & _).
  exists n, self, E. repeat split; try assumption.
  - destruct (Z_lt_le_dec 0 E) as [Hpos|Hle]; [assumption|].
    destruct (trial_zero_T fl rng node_qty d c n self E Hn Hself HE Hle) as (e & _ & _ & _ & He).
    congruence.
  - destruct (Z_lt_le_dec 0 E) as [Hpos|Hle].
    + rewrite (trial_pos fl rng node_qty 0 d c n self E Hn Hself HE Hpos) in H.
      congruence.
    + destruct (trial_zero_T fl rng node_qty d c n self E Hn Hself HE Hle) as (e & _ & _ & _ & He).
      congruence.
Qed.

(** A one-node model at [T = -1]: the sweep completes, the spin is flipped
    and the energy 0 is returned. *)
Lemma negative_temperature_sweep :
  update real_floats rng0 1 (-1) ([(0, mkNode 1 0 [])], 1%nat) = Ok ([(0, mkNode (-1) 0 [])], 3%nat).
Proof.
  unfold update. change (Z.to_nat 1) with 1%nat. cbn [repeat_n].
  assert (HT : (-1)%R <> 0%R) by lra.
  assert (Ht : trial real_floats rng0 1 (-1) ([(0, mkNode 1 0 [])], 1%nat)
               = Ok ([(0, mkNode (-1) 0 [])], 3%nat)).
  { exact (trial_zero_energy real_floats rng0 1 (-1) [(0, mkNode 1 0 [])] 1%nat 0
             (mkNode 1 0 []) eq_refl eq_refl eq_refl HT). }
  rewrite Ht. reflexivity.
Qed.

(** C4, as the specification states it, fails: one node, no triples,
    [T = -1].  The first sweep returns normally and [modelE] yields an
    energy. *)
Lemma invalid_temperature_counterexample :
  Model_init rng0 1 [] 0 = Ok (mkModel [(0, mkNode 1 0 [])] [] [], 1%nat)
  /\ (-1 <= 0)%R
  /\ update real_floats rng0 1 (-1) ([(0, mkNode 1 0 [])], 1%nat)
     = Ok ([(0, mkNode (-1) 0 [])], 3%nat)
  /\ modelE real_floats rng0 (mkModel [(0, mkNode 1 0 [])] [] []) 1 1 (-1)
       ([(0, mkNode 1 0 [])], 1%nat)
     = Ok (0, ([(0, mkNode (-1) 0 [])], 3%nat))
  /\ ~ invalid_temperature_always_raises.
Proof.
  split; [reflexivity|]. split; [lra|]. split; [apply negative_temperature_sweep|].
  split.
  - unfold modelE. change (Z.to_nat 1) with 1%nat. cbn [repeat_n].
    rewrite negative_temperature_sweep. reflexivity.
  - intros H.
    assert (H1 : 1 <= 1) by lia. assert (HT : (-1 <= 0)%R) by lra.
    destruct (H real_floats rng0 1 [] 0%nat (mkModel [(0, mkNode 1 0 [])] [] []) 1%nat
                (-1)%R eq_refl H1 HT) as (e & He).
    assert (Hc : @Raise state e = Ok ([(0, mkNode (-1) 0 [])], 3%nat)).
    { etransitivity; [symmetry; exact He | exact negative_temperature_sweep]. }
    discriminate.
Qed.

(** Even at [T = 0] a sweep can complete: two anti-aligned nodes, coupling 1,
    field 2 on node 1; both trials meet a positive local energy and flip
    without evaluating the division. *)
Example zero_temperature_sweep_without_error :
  Model_init rng0 2 [(0, 1, 1); (1, 1, 2)] 0
  = Ok (mkModel [(0, mkNode 1 0 [(1, 1)]); (1, mkNode (-1) 2 [(0, 1)])]
                [(0, 1, 1)] [(1, 2)], 2%nat)
  /\ update real_floats rng0 2 0 ([(0, mkNode 1 0 [(1, 1)]); (1, mkNode (-1) 2 [(0, 1)])], 2%nat)
     = Ok ([(0, mkNode (-1) 0 [(1, 1)]); (1, mkNode 1 2 [(0, 1)])], 4%nat).
Proof.
  split; [reflexivity|].
  unfold update. change (Z.to_nat 2) with 2%nat. cbn [repeat_n].
  assert (H1 : 0 < 1) by lia.
  assert (Ht1 : trial real_floats rng0 2 0
                  ([(0, mkNode 1 0 [(1, 1)]); (1, mkNode (-1) 2 [(0, 1)])], 2%nat)
                = Ok ([(0, mkNode (-1) 0 [(1, 1)]); (1, mkNode (-1) 2 [(0, 1)])], 3%nat)).
  { exact (trial_pos real_floats rng0 2 0 [(0, mkNode 1 0 [(1, 1)]); (1, mkNode (-1) 2 [(0, 1)])]
             2%nat 0 (mkNode 1 0 [(1, 1)]) 1 eq_refl eq_refl eq_refl H1). }
  assert (Ht2 : trial real_floats rng0 2 0
                  ([(0, mkNode (-1) 0 [(1, 1)]); (1, mkNode (-1) 2 [(0, 1)])], 3%nat)
                = Ok ([(0, mkNode (-1) 0 [(1, 1)]); (1, mkNode 1 2 [(0, 1)])], 4%nat)).
  { exact (trial_pos real_floats rng0 2 0 [(0, mkNode (-1) 0 [(1, 1)]); (1, mkNode (-1) 2 [(0, 1)])]
             3%nat 1 (mkNode (-1) 2 [(0, 1)]) 1 eq_refl eq_refl eq_refl H1). }
  rewrite Ht1. cbn [bind]. rewrite Ht2. reflexivity.
Qed.

(** C4 amended: at [T = 0] a trial returns only when the node it samples
    has local energy [> 0] (it then flips it); every trial, in any sweep,
    that samples a node with local energy [<= 0] raises, and the exception
    ends the sweep and [modelE]: no energy is returned.  The exception is
    [ZeroDivisionError] when [2*E] is within the range of floats, and
    [OverflowError], from the conversion of [2*E], when [|2*E| >= 2^1024].  Here [i]
    sweeps and [j] further trials have gone through before the trial on
    [(d, c)]. *)
Theorem zero_temperature_raises fl rng model node_qty I i j st st_i d c n self E :
  (i < Z.to_nat I)%nat ->
  (j < Z.to_nat node_qty)%nat ->
  repeat_n i (update fl rng node_qty 0) st = Ok st_i ->
  repeat_n j (trial fl rng node_qty 0) st_i = Ok (d, c) ->
  randint rng c 0 (node_qty - 1) = Ok n ->
  dict_get d n = Some self ->
  getE self d = Ok E ->
  E <= 0 ->
  (exists e,
     (e = ZeroDivisionError \/ e = OverflowError)
     /\ (Z.abs (2 * E) <= DBL_MAX -> e = ZeroDivisionError)
     /\ (2 ^ 1024 <= Z.abs (2 * E) -> e = OverflowError)
     /\ trial fl rng node_qty 0 (d, c) = Raise e
     /\ update fl rng node_qty 0 st_i = Raise e
     /\ modelE fl rng model node_qty I 0 st = Raise e)
  /\ (forall d1 c1 st1,
        trial fl rng node_qty 0 (d1, c1) = Ok st1 ->
        exists n1 self1 E1,
          randint rng c1 0 (node_qty - 1) = Ok n1
          /\ dict_get d1 n1 = Some self1 /\ getE self1 d1 = Ok E1 /\ 0 < E1
          /\ st1 = (dict_set d1 n1 (switchSpin self1), S c1)).
Proof.
  intros Hi Hj Hsweeps Htrials Hn Hself HE Hle. split.
  - destruct (trial_zero_T fl rng node_qty d c n self E Hn Hself HE Hle)
      as (e & Hkind & Hzero & Hbig & Ht).
    exists e. split; [assumption|]. split; [assumption|]. split; [assumption|].
    split; [assumption|].
    assert (Hu : update fl rng node_qty 0 st_i = Raise e).
    { unfold update. eapply repeat_n_raises; eassumption. }
    split; [assumption|].
    unfold modelE. rewrite (repeat_n_raises _ i (Z.to_nat I) st st_i e Hi Hsweeps Hu).
    reflexivity.
  - intros d1 c1 st1 H. eapply trial_zero_T_returns; exact H.
Qed.

(** Two anti-aligned nodes with a coupling of weight 1 at [T = 0]: the first
    trial meets [E = 1] and flips node 0, the second meets [E = -1] on node
    1 and raises. *)
Lemma zero_temperature_raises_witness :
  (exists e,
     (e = ZeroDivisionError \/ e = OverflowError)
     /\ (Z.abs (2 * -1) <= DBL_MAX -> e = ZeroDivisionError)
     /\ (2 ^ 1024 <= Z.abs (2 * -1) -> e = OverflowError)
     /\ trial real_floats rng0 2 0
          ([(0, mkNode (-1) 0 [(1, 1)]); (1, mkNode (-1) 0 [(0, 1)])], 3%nat) = Raise e
     /\ update real_floats rng0 2 0
          ([(0, mkNode 1 0 [(1, 1)]); (1, mkNode (-1) 0 [(0, 1)])], 2%nat) = Raise e
     /\ modelE real_floats rng0
          (mkModel [(0, mkNode 1 0 [(1, 1)]); (1, mkNode (-1) 0 [(0, 1)])] [(0, 1, 1)] [])
          2 1 0 ([(0, mkNode 1 0 [(1, 1)]); (1, mkNode (-1) 0 [(0, 1)])], 2%nat) = Raise e)
  /\ (forall d1 c1 st1,
        trial real_floats rng0 2 0 (d1, c1) = Ok st1 ->
        exists n1 self1 E1,
          randint rng0 c1 0 (2 - 1) = Ok n1
          /\ dict_get d1 n1 = Some self1 /\ getE self1 d1 = Ok E1 /\ 0 < E1
          /\ st1 = (dict_set d1 n1 (switchSpin self1), S c1)).
Proof.
  assert (H1 : 0 < 1) by lia.
  assert (Hle : -1 <= 0) by lia.
  apply (zero_temperature_raises real_floats rng0
           (mkModel [(0, mkNode 1 0 [(1, 1)]); (1, mkNode (-1) 0 [(0, 1)])] [(0, 1, 1)] [])
           2 1 0%nat 1%nat
           ([(0, mkNode 1 0 [(1, 1)]); (1, mkNode (-1) 0 [(0, 1)])], 2%nat)
           ([(0, mkNode 1 0 [(1, 1)]); (1, mkNode (-1) 0 [(0, 1)])], 2%nat)
           [(0, mkNode (-1) 0 [(1, 1)]); (1, mkNode (-1) 0 [(0, 1)])] 3%nat
           1 (mkNode (-1) 0 [(0, 1)]) (-1)).
  - simpl. lia.
  - simpl. lia.
  - reflexivity.
  - cbn [repeat_n].
    assert (Ht : trial real_floats rng0 2 0
                   ([(0, mkNode 1 0 [(1, 1)]); (1, mkNode (-1) 0 [(0, 1)])], 2%nat)
                 = Ok ([(0, mkNode (-1) 0 [(1, 1)]); (1, mkNode (-1) 0 [(0, 1)])], 3%nat)).
    { exact (trial_pos real_floats rng0 2 0
               [(0, mkNode 1 0 [(1, 1)]); (1, mkNode (-1) 0 [(0, 1)])]
               2%nat 0 (mkNode 1 0 [(1, 1)]) 1 eq_refl eq_refl eq_refl H1). }
    rewrite Ht. reflexivity.
  - reflexivity.
  - reflexivity.
  - reflexivity.
  - exact Hle.
Defined.

(** In a constructed model without couplings every local energy is 0, so at
    [T = 0] the first trial of the first sweep raises. *)
Lemma zero_temperature_no_couplings fl rng node_qty weights c m c' I :
  Model_init rng node_qty weights c = Ok (m, c') ->
  (forall w, In w weights -> is_field w = true) ->
  1 <= node_qty -> 1 <= I ->
  update fl rng node_qty 0 (getNodes m, c') = Raise ZeroDivisionError
  /\ modelE fl rng m node_qty I 0 (getNodes m, c') = Raise ZeroDivisionError.
Proof.
  intros Hm Hw Hq HI.
  pose proof (Model_init_establishes_inv _ _ _ _ _ _ Hm) as Hinv.
  destruct (randint_in_range rng c' node_qty Hq) as (n & Hn & Hrange).
  destruct (inv_has_key node_qty (nodes m) n Hinv Hrange) as (self & Hself).
  apply Model_init_inv in Hm. destruct Hm as (_ & _ & N & _).
  destruct (N n self Hself) as (_ & HJ & _).
  assert (Hnil : incident n weights = []).
  { clear -Hw. induction weights as [|[[w0 w1] w2] ws IH]; [reflexivity|].
    unfold incident in *. cbn [flat_map].
    pose proof (Hw (w0, w1, w2) (or_introl eq_refl)) as H0.
    unfold is_field in H0. simpl in H0. rewrite H0. simpl.
    apply IH. intros w Hin. apply Hw. right. assumption. }
  assert (HE : getE self (nodes m) = Ok 0).
  { unfold getE, getJn. rewrite HJ, Hnil. reflexivity. }
  assert (H0 : 0 <= 0) by lia.
  destruct (trial_zero_T fl rng node_qty (nodes m) c' n self 0 Hn Hself HE H0)
    as (e & _ & Hzero & _ & Ht).
  assert (He : e = ZeroDivisionError) by (apply Hzero; vm_compute; discriminate).
  subst e.
  assert (Hu : update fl rng node_qty 0 (getNodes m, c') = Raise ZeroDivisionError).
  { apply update_first_trial_raises; assumption. }
  split; [assumption|]. apply modelE_first_sweep_raises; assumption.
Qed.

(** C3, as the specification states it, fails: two nodes joined by a
    coupling of weight [2^1023] at [T = 1], one sweep.  The first trial
    meets [E = 2^1023 > 0] and flips node 0; the second meets
    [E = -2^1023] on node 1, and [2*E/T] raises [OverflowError]: no energy
    is returned. *)
Lemma modelE_counterexample :
  Model_init rng0 2 [(0, 1, 2 ^ 1023)] 0
  = Ok (mkModel [(0, mkNode 1 0 [(1, 2 ^ 1023)]); (1, mkNode (-1) 0 [(0, 2 ^ 1023)])]
                [(0, 1, 2 ^ 1023)] [], 2%nat)
  /\ modelE real_floats rng0
       (mkModel [(0, mkNode 1 0 [(1, 2 ^ 1023)]); (1, mkNode (-1) 0 [(0, 2 ^ 1023)])]
                [(0, 1, 2 ^ 1023)] [])
       2 1 1 ([(0, mkNode 1 0 [(1, 2 ^ 1023)]); (1, mkNode (-1) 0 [(0, 2 ^ 1023)])], 2%nat)
     = Raise OverflowError
  /\ ~ modelE_always_returns.
Proof.
  assert (Hpos : 0 < 2 ^ 1023) by (vm_compute; reflexivity).
  assert (Hle : - 2 ^ 1023 <= 0) by (vm_compute; discriminate).
  assert (Ht1 : trial real_floats rng0 2 1
                  ([(0, mkNode 1 0 [(1, 2 ^ 1023)]); (1, mkNode (-1) 0 [(0, 2 ^ 1023)])], 2%nat)
                = Ok ([(0, mkNode (-1) 0 [(1, 2 ^ 1023)]); (1, mkNode (-1) 0 [(0, 2 ^ 1023)])],
                      3%nat)).
  { exact (trial_pos real_floats rng0 2 1
             [(0, mkNode 1 0 [(1, 2 ^ 1023)]); (1, mkNode (-1) 0 [(0, 2 ^ 1023)])]
             2%nat 0 (mkNode 1 0 [(1, 2 ^ 1023)]) (2 ^ 1023) eq_refl eq_refl eq_refl Hpos). }
  assert (Ht2 : trial real_floats rng0 2 1
                  ([(0, mkNode (-1) 0 [(1, 2 ^ 1023)]); (1, mkNode (-1) 0 [(0, 2 ^ 1023)])],
                   3%nat)
                = Raise OverflowError).
  { apply (trial_nonpos_raise real_floats rng0 2 1
             [(0, mkNode (-1) 0 [(1, 2 ^ 1023)]); (1, mkNode (-1) 0 [(0, 2 ^ 1023)])] 3%nat 1
             (mkNode (-1) 0 [(0, 2 ^ 1023)]) (- 2 ^ 1023) eq_refl eq_refl eq_refl
             OverflowError Hle).
    apply boltzmann_overflow. vm_compute. discriminate. }
  assert (HE : modelE real_floats rng0
                 (mkModel [(0, mkNode 1 0 [(1, 2 ^ 1023)]); (1, mkNode (-1) 0 [(0, 2 ^ 1023)])]
                          [(0, 1, 2 ^ 1023)] [])
                 2 1 1
                 ([(0, mkNode 1 0 [(1, 2 ^ 1023)]); (1, mkNode (-1) 0 [(0, 2 ^ 1023)])], 2%nat)
               = Raise OverflowError).
  { unfold modelE, update. change (Z.to_nat 1) with 1%nat. change (Z.to_nat 2) with 2%nat.
    cbn [repeat_n]. rewrite Ht1. cbn [bind]. rewrite Ht2. reflexivity. }
  split; [reflexivity|]. split; [exact HE|].
  intros H.
  destruct (H real_floats rng0 2 [(0, 1, 2 ^ 1023)] 0%nat
              (mkModel [(0, mkNode 1 0 [(1, 2 ^ 1023)]); (1, mkNode (-1) 0 [(0, 2 ^ 1023)])]
                       [(0, 1, 2 ^ 1023)] [])
              2%nat 1 1%R eq_refl Rlt_0_1) as (e & st' & Hret).
  assert (Hc : @Raise (Z * state) OverflowError = Ok (e, st')).
  { etransitivity; [symmetry; exact HE | exact Hret]. }
  discriminate.
Qed.

(** ** The empty model *)

Lemma update_no_nodes fl rng T st : update fl rng 0 T st = Ok st.
Proof. reflexivity. Qed.

Lemma sweeps_no_nodes fl rng T k st : repeat_n k (update fl rng 0 T) st = Ok st.
Proof.
  induction k as [|k IH]; [reflexivity|].
  cbn [repeat_n]. rewrite update_no_nodes. cbn [bind]. exact IH.
Qed.

(** C8: [Model(0, [])] has no nodes, edges or fields; on it a sweep runs no
    trial, changes neither the dictionary nor the random source and raises
    nothing, for every temperature (zero and negative included); [modelE]
    returns 0 for every iteration count and temperature. *)
Theorem empty_model_is_inert fl rng c :
  Model_init rng 0 [] c = Ok (mkModel [] [] [], c)
  /\ (forall T st, update fl rng 0 T st = Ok st)
  /\ (forall T st, repeat_n (Z.to_nat 0) (trial fl rng 0 T) st = Ok st)
  /\ (forall I T, modelE fl rng (mkModel [] [] []) 0 I T ([], c) = Ok (0, ([], c))).
Proof.
  split; [reflexivity|]. split; [intros; apply update_no_nodes|].
  split; [reflexivity|].
  intros I T. unfold modelE. rewrite sweeps_no_nodes. reflexivity.
Qed.

(** ** modelSpin *)

Lemma dict_get_member (d : dict) (kv : Z * Node) :
  NoDup (dict_keys d) -> In kv d -> dict_get d (fst kv) = Some (snd kv).
Proof.
  induction d as [|[k0 v0] d IH]; intros Hnd Hin; [contradiction|].
  simpl in *. inversion Hnd as [|? ? Hnotin Hnd']; subst.
  destruct Hin as [<-|Hin].
  - simpl. rewrite Z.eqb_refl. reflexivity.
  - destruct (k0 =? fst kv) eqn:E0.
    + apply Z.eqb_eq in E0. subst k0. exfalso. apply Hnotin.
      unfold dict_keys in *. apply in_map. assumption.
    + apply IH; assumption.
Qed.

Lemma modelSpin_loop (d l : dict) (acc : list Z) :
  NoDup (dict_keys d) -> (forall kv, In kv l -> In kv d) ->
  for_each (fun acc e => nd <- getitem d e ;; Ok (acc ++ [getSpin nd])) (dict_keys l) acc
  = Ok (acc ++ map (fun kv => spin (snd kv)) l).
Proof.
  intros Hnd. revert acc. induction l as [|kv l IH]; intros acc Hin.
  - simpl. rewrite app_nil_r. reflexivity.
  - cbn [dict_keys map for_each]. unfold getitem at 1.
    rewrite (dict_get_member d kv Hnd (Hin kv (or_introl eq_refl))). cbn [bind].
    fold (dict_keys l). rewrite IH by (intros kv' H'; apply Hin; right; assumption).
    rewrite <- app_assoc. reflexivity.
Qed.

Lemma modelSpin_NoDup (d : dict) :
  NoDup (dict_keys d) -> modelSpin d = Ok (map (fun kv => symbol (spin (snd kv))) d).
Proof.
  intros Hnd. unfold modelSpin. rewrite modelSpin_loop by auto.
  cbn [bind app]. rewrite map_map. reflexivity.
Qed.

Lemma inv_nth node_qty d i :
  inv node_qty d -> 0 <= i < node_qty ->
  dict_get d i = Some (snd (nth (Z.to_nat i) d (-1, mkNode 0 0 []))).
Proof.
  intros (K & _ & _) Hi.
  assert (Hlen : length d = Z.to_nat node_qty).
  { transitivity (length (dict_keys d)); [unfold dict_keys; rewrite length_map; reflexivity|].
    rewrite K. unfold range. rewrite length_map, length_seq. reflexivity. }
  assert (Hnd : NoDup (dict_keys d)) by (rewrite K; apply range_NoDup).
  assert (Hin : In (nth (Z.to_nat i) d (-1, mkNode 0 0 [])) d) by (apply nth_In; lia).
  pose proof (dict_get_member d _ Hnd Hin) as Hget.
  assert (Hfst : fst (nth (Z.to_nat i) d (-1, mkNode 0 0 [])) = i).
  { transitivity (nth (Z.to_nat i) (dict_keys d) (-1)).
    - symmetry. exact (map_nth fst d (-1, mkNode 0 0 []) (Z.to_nat i)).
    - rewrite K. apply range_nth. assumption. }
  rewrite Hfst in Hget. exact Hget.
Qed.

(** C9: for a constructed model with [node_qty >= 0], in every state of a
    run, [modelSpin] returns [node_qty] symbols, the symbol at position [i]
    belonging to node [i]: '+' when its spin is positive and '-' otherwise.
    [modelSpin] only reads the dictionary: its result carries no state. *)
Theorem modelSpin_render fl rng node_qty weights c m c' T st :
  0 <= node_qty ->
  Model_init rng node_qty weights c = Ok (m, c') ->
  reachable fl rng node_qty T (getNodes m, c') st ->
  exists syms,
    modelSpin (fst st) = Ok syms
    /\ Z.of_nat (length syms) = node_qty
    /\ (forall s, In s syms -> s = plus \/ s = minus)
    /\ (forall i, 0 <= i < node_qty ->
          exists nd,
            dict_get (fst st) i = Some nd
            /\ (0 < getSpin nd -> nth (Z.to_nat i) syms minus = plus)
            /\ (getSpin nd <= 0 -> nth (Z.to_nat i) syms minus = minus)).
Proof.
  intros Hq Hm Hreach.
  pose proof (Model_init_establishes_inv _ _ _ _ _ _ Hm) as Hinv0.
  pose proof (reachable_inv fl rng node_qty T (getNodes m, c') st Hinv0 Hreach) as Hinv.
  destruct st as [d cs]. cbn [fst] in *.
  pose proof Hinv as (K & _ & _).
  exists (map (fun kv => symbol (spin (snd kv))) d).
  split; [|split; [|split]].
  - apply modelSpin_NoDup. rewrite K. apply range_NoDup.
  - rewrite length_map. transitivity (Z.of_nat (length (dict_keys d))).
    + unfold dict_keys. rewrite length_map. reflexivity.
    + rewrite K. apply range_length. assumption.
  - intros s Hs. apply in_map_iff in Hs. destruct Hs as (kv & <- & _).
    unfold symbol. destruct (0 <? spin (snd kv)); auto.
  - intros i Hi. exists (snd (nth (Z.to_nat i) d (-1, mkNode 0 0 []))).
    split; [apply (inv_nth node_qty); assumption|].
    assert (Hnth : nth (Z.to_nat i) (map (fun kv => symbol (spin (snd kv))) d) minus
                   = symbol (spin (snd (nth (Z.to_nat i) d (-1, mkNode 0 0 []))))).
    { exact (map_nth (fun kv => symbol (spin (snd kv))) d (-1, mkNode 0 0 []) (Z.to_nat i)). }
    rewrite Hnth. unfold symbol, getSpin. split; intros Hs.
    + apply Z.ltb_lt in Hs. rewrite Hs. reflexivity.
    + apply Z.ltb_ge in Hs. rewrite Hs. reflexivity.
Qed.

Lemma modelSpin_render_witness :
  exists syms,
    modelSpin (fst ([(0, mkNode 1 0 [(1, 1)]); (1, mkNode (-1) 0 [(0, 1)])], 2%nat))
    = Ok syms
    /\ Z.of_nat (length syms) = 2
    /\ (forall s, In s syms -> s = plus \/ s = minus)
    /\ (forall i, 0 <= i < 2 ->
          exists nd,
            dict_get (fst ([(0, mkNode 1 0 [(1, 1)]); (1, mkNode (-1) 0 [(0, 1)])], 2%nat)) i
            = Some nd
            /\ (0 < getSpin nd -> nth (Z.to_nat i) syms minus = plus)
            /\ (getSpin nd <= 0 -> nth (Z.to_nat i) syms minus = minus)).
Proof.
  apply (modelSpin_render real_floats rng0 2 [(0, 1, 1)] 0%nat
           (mkModel [(0, mkNode 1 0 [(1, 1)]); (1, mkNode (-1) 0 [(0, 1)])] [(0, 1, 1)] [])
           2%nat 1%R).
  - lia.
  - reflexivity.
  - apply reach_refl.
Defined.

Example modelSpin_two_nodes :
  modelSpin [(0, mkNode 1 0 [(1, 1)]); (1, mkNode (-1) 0 [(0, 1)])] = Ok [plus; minus].
Proof. reflexivity. Qed.

Example plus_is_not_minus : plus <> minus.
Proof. discriminate. Qed.

(** * Further properties of the model code *)

(** ** Model.__init__: success, failure and the initial spins *)

(** [Model(node_qty, weights)] returns a model exactly when every index of
    every triple is one of [0 .. node_qty-1]. *)
Theorem Model_init_succeeds_iff rng node_qty weights c :
  (exists m c', Model_init rng node_qty weights c = Ok (m, c'))
  <-> (forall w, In w weights ->
         0 <= fst (fst w) < node_qty /\ 0 <= snd (fst w) < node_qty).
Proof.
  split.
  - intros (m & c' & H) w Hw. apply Model_init_inv in H.
    destruct H as (_ & _ & _ & _ & _ & E). apply E in Hw.
    rewrite !in_range in Hw. assumption.
  - intros H. destruct (Model_init_total rng node_qty weights c H) as (m & Hm).
    eauto.
Qed.

Lemma add_weight_bad_index (m : Model) (a b w : Z) :
  ~ (dict_get (nodes m) a <> None /\ dict_get (nodes m) b <> None) ->
  add_weight m (a, b, w)
  = Raise (KeyError (match dict_get (nodes m) a with Some _ => b | None => a end)).
Proof.
  intros Hbad. unfold add_weight.
  destruct (dict_get (nodes m) a) as [na|] eqn:Ea.
  - assert (Eb : dict_get (nodes m) b = None).
    { destruct (dict_get (nodes m) b); [exfalso; apply Hbad; split; congruence | reflexivity]. }
    destruct (a =? b) eqn:Eab.
    + apply Z.eqb_eq in Eab. congruence.
    + cbn [negb]. rewrite (call_on_ok _ _ _ _ Ea). cbn [bind].
      unfold call_on, getitem. rewrite dict_get_set, Eab, Eb. reflexivity.
  - destruct (a =? b) eqn:Eab; cbn [negb]; unfold call_on, getitem; rewrite Ea; reflexivity.
Qed.

(** The first triple with an index outside [0 .. node_qty-1] stops the
    construction with [KeyError]: for its first component when that one is
    out of range, for its second component otherwise. *)
Theorem Model_init_first_bad_index rng node_qty good a b w rest c :
  (forall x, In x good ->
     0 <= fst (fst x) < node_qty /\ 0 <= snd (fst x) < node_qty) ->
  ~ (0 <= a < node_qty /\ 0 <= b < node_qty) ->
  Model_init rng node_qty (good ++ (a, b, w) :: rest) c
  = Raise (KeyError (if (0 <=? a) && (a <? node_qty) then b else a)).
Proof.
  intros Hgood Hbad. unfold Model_init, range. rewrite create_loop. cbn [bind fst snd].
  rewrite for_each_app.
  destruct (add_weights_total good
              {| nodes := initial_nodes rng c (Z.to_nat node_qty); Js := []; hs := [] |})
    as (m & Hm).
  { intros x Hx. cbn [nodes]. rewrite initial_nodes_keys. fold (range node_qty).
    rewrite !in_range. auto. }
  rewrite Hm. cbn [bind for_each].
  apply add_weights_inv in Hm. destruct Hm as (K & _). cbn [nodes] in K.
  rewrite initial_nodes_keys in K. fold (range node_qty) in K.
  assert (Hkey : forall k, dict_get (nodes m) k <> None <-> 0 <= k < node_qty).
  { intros k. rewrite dict_get_in_keys, K. apply in_range. }
  rewrite add_weight_bad_index by (rewrite !Hkey; assumption).
  cbn [bind]. do 2 f_equal.
  destruct ((0 <=? a) && (a <? node_qty)) eqn:Ea.
  - apply andb_true_iff in Ea. destruct Ea as [E1 E2].
    apply Z.leb_le in E1. apply Z.ltb_lt in E2.
    destruct (dict_get (nodes m) a) eqn:Ega; [reflexivity|].
    exfalso. apply (proj2 (Hkey a)); [lia | assumption].
  - destruct (dict_get (nodes m) a) eqn:Ega; [|reflexivity].
    assert (Hin : 0 <= a < node_qty) by (apply Hkey; congruence).
    apply andb_false_iff in Ea. destruct Ea as [E1|E2].
    + apply Z.leb_gt in E1. lia.
    + apply Z.ltb_ge in E2. lia.
Qed.

Lemma Model_init_first_bad_index_witness :
  Model_init rng0 2 ([(0, 1, 4)] ++ (1, 2, 5) :: [(7, 7, 1)]) 0 = Raise (KeyError 2).
Proof.
  apply (Model_init_first_bad_index rng0 2 [(0, 1, 4)] 1 2 5 [(7, 7, 1)] 0%nat).
  - intros x [<-|[]]. simpl. lia.
  - lia.
Defined.

Lemma initial_nodes_spin rng c n k nd :
  dict_get (initial_nodes rng c n) k = Some nd ->
  spin nd = choice_pm rng (c + Z.to_nat k).
Proof.
  intros H. apply dict_get_in in H. unfold initial_nodes in H.
  apply in_map_iff in H. destruct H as (i & [= <- <-] & _).
  rewrite Nat2Z.id. reflexivity.
Qed.

(** Construction makes exactly [node_qty] calls to the random source (none
    for [node_qty <= 0]), one per node in index order; the spin of node [k]
    is the outcome of call number [c + k], whatever the triples are. *)
Theorem Model_init_spins rng node_qty weights c m c' :
  Model_init rng node_qty weights c = Ok (m, c') ->
  c' = (c + Z.to_nat node_qty)%nat
  /\ dict_keys (getNodes m) = range node_qty
  /\ (forall k, 0 <= k < node_qty ->
        exists nd, dict_get (getNodes m) k = Some nd
                   /\ getSpin nd = choice_pm rng (c + Z.to_nat k)).
Proof.
  intros H. pose proof (Model_init_establishes_inv _ _ _ _ _ _ H) as Hinv.
  pose proof (Model_init_inv _ _ _ _ _ _ H) as (Hc & K & _).
  split; [assumption|]. split; [assumption|].
  intros k Hk. destruct (inv_has_key node_qty (nodes m) k Hinv Hk) as (nd & Hnd).
  exists nd. split; [assumption|].
  unfold Model_init, range in H. rewrite create_loop in H. cbn [bind fst snd] in H.
  inv_bind H. injection H as <- _.
  apply add_weights_inv in Ha. destruct Ha as (_ & G & _). cbn [nodes] in G.
  rewrite G in Hnd.
  destruct (dict_get (initial_nodes rng c (Z.to_nat node_qty)) k) as [nd0|] eqn:E0;
    [|discriminate].
  injection Hnd as <-. apply initial_nodes_spin in E0.
  destruct (apply_weights_node k weights nd0) as (S1 & _).
  unfold getSpin. rewrite S1. assumption.
Qed.

Lemma Model_init_spins_witness :
  (2 = 0 + Z.to_nat 2)%nat
  /\ dict_keys (getNodes (mkModel [(0, mkNode 1 0 [(1, 1)]); (1, mkNode (-1) 0 [(0, 1)])]
                                  [(0, 1, 1)] [])) = range 2
  /\ (forall k, 0 <= k < 2 ->
        exists nd,
          dict_get (getNodes (mkModel [(0, mkNode 1 0 [(1, 1)]); (1, mkNode (-1) 0 [(0, 1)])]
                                      [(0, 1, 1)] [])) k = Some nd
          /\ getSpin nd = choice_pm rng0 (0 + Z.to_nat k)).
Proof.
  exact (Model_init_spins rng0 2 [(0, 1, 1)] 0%nat
           (mkModel [(0, mkNode 1 0 [(1, 1)]); (1, mkNode (-1) 0 [(0, 1)])] [(0, 1, 1)] [])
           2%nat eq_refl).
Defined.

(** ** The energy in terms of the input triples *)

Lemma total_energy_of_input (d : dict) (ws : list (Z * Z * Z)) :
  total_energy_spec (filter is_edge ws) (map field_of (filter is_field ws)) d
  = - zsum (map (triple_energy d) ws).
Proof.
  unfold total_energy_spec. f_equal.
  unfold zsum. induction ws as [|w ws IH]; [reflexivity|].
  assert (Hef : is_edge w = negb (is_field w)) by reflexivity.
  cbn [filter map fold_right]. unfold triple_energy at 1. rewrite <- IH, Hef.
  destruct (is_field w); cbn [negb map fold_right field_of fst snd]; lia.
Qed.

(** Whenever [modelE] returns on a constructed model, its value is the
    negated sum over all input triples, each counted once per occurrence, on
    the final spins: a triple (a, b, w) with a <> b gives spin[a]*spin[b]*w
    and a self-loop (a, a, w) gives spin[a]*w.  Repeated self-loops on a node
    all count here, although the node's own field keeps only the last of
    them.  It does return for [T > 0] when the local energies are within the
    range of floats. *)
Theorem modelE_energy_of_input fl rng node_qty weights c m c' :
  Model_init rng node_qty weights c = Ok (m, c') ->
  (forall I T e st',
      modelE fl rng m node_qty I T (getNodes m, c') = Ok (e, st') ->
      e = - zsum (map (triple_energy (fst st')) weights))
  /\ (forall I T,
        float_safe (getNodes m) -> (0 < T)%R ->
        exists st',
          modelE fl rng m node_qty I T (getNodes m, c')
          = Ok (- zsum (map (triple_energy (fst st')) weights), st')).
Proof.
  intros Hm.
  pose proof (Model_init_establishes_inv _ _ _ _ _ _ Hm) as Hinv.
  destruct (Model_init_lists _ _ _ _ _ _ Hm) as [HJ HF].
  pose proof (Model_init_inv _ _ _ _ _ _ Hm) as (_ & _ & _ & EJ & EH & _).
  assert (Hval : forall I T st',
             repeat_n (Z.to_nat I) (update fl rng node_qty T) (getNodes m, c') = Ok st' ->
             modelE fl rng m node_qty I T (getNodes m, c')
             = Ok (- zsum (map (triple_energy (fst st')) weights), st')).
  { intros I T st' Hrun.
    rewrite (modelE_energy fl rng m node_qty I T _ st' Hrun); try assumption.
    - rewrite EJ, EH, total_energy_of_input. reflexivity.
    - apply (reachable_inv fl rng node_qty T (getNodes m, c') st' Hinv).
      eapply sweeps_reachable; exact Hrun. }
  split.
  - intros I T e st' H. pose proof (modelE_inv _ _ _ _ _ _ _ _ _ H) as Hrun.
    rewrite (Hval I T st' Hrun) in H. congruence.
  - intros I T Hsafe HT.
    destruct (sweeps_total fl rng node_qty T (Z.to_nat I) (getNodes m, c') Hinv Hsafe HT)
      as (st' & Hrun).
    exists st'. apply Hval. assumption.
Qed.

Lemma modelE_energy_of_input_witness :
  (forall I T e st',
      modelE real_floats rng0
        (mkModel [(0, mkNode (-1) 0 []); (1, mkNode 1 7 [])] [] [(1, 5); (1, 7)])
        2 I T (getNodes (mkModel [(0, mkNode (-1) 0 []); (1, mkNode 1 7 [])] []
                                 [(1, 5); (1, 7)]), 3%nat) = Ok (e, st') ->
      e = - zsum (map (triple_energy (fst st')) [(1, 1, 5); (1, 1, 7)]))
  /\ (exists st',
        modelE real_floats rng0
          (mkModel [(0, mkNode (-1) 0 []); (1, mkNode 1 7 [])] [] [(1, 5); (1, 7)])
          2 3 1 (getNodes (mkModel [(0, mkNode (-1) 0 []); (1, mkNode 1 7 [])] []
                                   [(1, 5); (1, 7)]), 3%nat)
        = Ok (- zsum (map (triple_energy (fst st')) [(1, 1, 5); (1, 1, 7)]), st')).
Proof.
  pose proof (modelE_energy_of_input real_floats rng0 2 [(1, 1, 5); (1, 1, 7)] 1%nat
                (mkModel [(0, mkNode (-1) 0 []); (1, mkNode 1 7 [])] [] [(1, 5); (1, 7)])
                3%nat eq_refl) as [Hval Hret].
  split; [exact Hval|].
  exact (Hret 3 1%R
           (float_safeb_sound
              (getNodes (mkModel [(0, mkNode (-1) 0 []); (1, mkNode 1 7 [])] []
                                 [(1, 5); (1, 7)])) eq_refl)
           Rlt_0_1).
Defined.

Example repeated_self_loops_add_up :
  modelE real_floats rng0 (mkModel [(0, mkNode (-1) 0 []); (1, mkNode 1 7 [])] [] [(1, 5); (1, 7)])
    2 0 1 ([(0, mkNode (-1) 0 []); (1, mkNode 1 7 [])], 3%nat)
  = Ok (- (5 + 7), ([(0, mkNode (-1) 0 []); (1, mkNode 1 7 [])], 3%nat)).
Proof. reflexivity. Qed.

(** ** What a sweep leaves alone *)

Lemma same_but_spin_refl (d : dict) : same_but_spin d d.
Proof.
  split; [reflexivity|]. intros k nd H. exists nd. auto.
Qed.

Lemma same_but_spin_trans (d1 d2 d3 : dict) :
  same_but_spin d1 d2 -> same_but_spin d2 d3 -> same_but_spin d1 d3.
Proof.
  intros [K12 H12] [K23 H23]. split; [congruence|].
  intros k nd3 H3. destruct (H23 k nd3 H3) as (nd2 & H2 & F2 & J2 & S2).
  destruct (H12 k nd2 H2) as (nd1 & H1 & F1 & J1 & S1).
  exists nd1. repeat split; try congruence. lia.
Qed.

Lemma same_but_spin_flip (d : dict) n self :
  dict_get d n = Some self -> same_but_spin d (dict_set d n (switchSpin self)).
Proof.
  intros Hn. split; [apply dict_set_present; congruence|].
  intros k nd' Hk. rewrite dict_get_set in Hk.
  destruct (n =? k) eqn:Enk.
  - apply Z.eqb_eq in Enk. subst k. injection Hk as <-.
    exists self. simpl. auto.
  - exists nd'. auto.
Qed.

Lemma trial_same_but_spin fl rng node_qty T d c d' c' :
  trial fl rng node_qty T (d, c) = Ok (d', c') -> same_but_spin d d'.
Proof.
  intros H. apply trial_inversion in H.
  destruct H as (n & self & E & _ & Hself & _ & [-> | ->]).
  - apply same_but_spin_refl.
  - apply same_but_spin_flip. assumption.
Qed.

Lemma reachable_same_but_spin fl rng node_qty T st st' :
  reachable fl rng node_qty T st st' -> same_but_spin (fst st) (fst st').
Proof.
  intros H. induction H as [|[d1 c1] [d2 c2] _ IH Ht].
  - apply same_but_spin_refl.
  - eapply same_but_spin_trans; [exact IH|].
    cbn [fst]. eapply trial_same_but_spin; exact Ht.
Qed.

(** Trials, sweeps and [modelE] change nothing but spins, on any dictionary:
    the keys and their order, and every node's field and coupling list, are
    as before; a spin is either kept or negated. *)
Theorem sweeps_only_change_spins fl rng node_qty T :
  (forall st st', trial fl rng node_qty T st = Ok st' -> same_but_spin (fst st) (fst st'))
  /\ (forall st st', update fl rng node_qty T st = Ok st' -> same_but_spin (fst st) (fst st'))
  /\ (forall model I st mE st',
        modelE fl rng model node_qty I T st = Ok (mE, st') ->
        same_but_spin (fst st) (fst st')).
Proof.
  split; [|split].
  - intros [d c] [d' c'] H. eapply trial_same_but_spin; exact H.
  - intros st st' H. eapply reachable_same_but_spin, update_reachable; exact H.
  - intros model I st mE st' H.
    eapply reachable_same_but_spin, sweeps_reachable, modelE_inv; exact H.
Qed.

Lemma sweeps_only_change_spins_witness :
  same_but_spin
    (fst ([(0, mkNode 1 0 [(1, 1)]); (1, mkNode (-1) 0 [(0, 1)])], 0%nat))
    (fst ([(0, mkNode (-1) 0 [(1, 1)]); (1, mkNode (-1) 0 [(0, 1)])], 1%nat)).
Proof.
  apply (proj1 (sweeps_only_change_spins real_floats rng0 2 1%R)
           ([(0, mkNode 1 0 [(1, 1)]); (1, mkNode (-1) 0 [(0, 1)])], 0%nat)
           ([(0, mkNode (-1) 0 [(1, 1)]); (1, mkNode (-1) 0 [(0, 1)])], 1%nat)).
  assert (H1 : 0 < 1) by lia.
  exact (trial_pos real_floats rng0 2 1 [(0, mkNode 1 0 [(1, 1)]); (1, mkNode (-1) 0 [(0, 1)])]
           0%nat 0 (mkNode 1 0 [(1, 1)]) 1 eq_refl eq_refl eq_refl H1).
Defined.

(** ** Calls to the random source *)

Lemma trial_calls fl rng node_qty T d c st' :
  trial fl rng node_qty T (d, c) = Ok st' ->
  exists n self E,
    randint rng c 0 (node_qty - 1) = Ok n
    /\ dict_get d n = Some self
    /\ getE self d = Ok E
    /\ ((0 < E /\ snd st' = S c) \/ (E <= 0 /\ snd st' = S (S c))).
Proof.
  intros H. destruct st' as [d' c']. pose proof H as H0. apply trial_inversion in H0.
  destruct H0 as (n & self & E & Hn & Hself & HE & _).
  exists n, self, E. repeat split; try assumption.
  destruct (Z_lt_le_dec 0 E) as [Hpos|Hle].
  - rewrite (trial_pos fl rng node_qty T d c n self E Hn Hself HE Hpos) in H.
    injection H as _ <-. auto.
  - destruct (boltzmann fl E T) as [p|e] eqn:Hb.
    + rewrite (trial_nonpos fl rng node_qty T d c n self E Hn Hself HE p Hle Hb) in H.
      injection H as _ <-. auto.
    + rewrite (trial_nonpos_raise fl rng node_qty T d c n self E Hn Hself HE e Hle Hb) in H.
      discriminate.
Qed.

Lemma trial_counter fl rng node_qty T d c d' c' :
  trial fl rng node_qty T (d, c) = Ok (d', c') -> c' = S c \/ c' = S (S c).
Proof.
  intros H. apply trial_calls in H.
  destruct H as (n & self & E & _ & _ & _ & [[_ H]|[_ H]]); cbn [snd] in H; auto.
Qed.

Lemma trials_counter fl rng node_qty T k st st' :
  repeat_n k (trial fl rng node_qty T) st = Ok st' ->
  (snd st + k <= snd st' <= snd st + 2 * k)%nat.
Proof.
  revert st. induction k as [|k IH]; intros [d c] H; cbn [repeat_n] in H.
  - injection H as <-. simpl. lia.
  - inv_bind H. destruct a as [d1 c1]. apply trial_counter in Ha.
    apply IH in H. cbn [snd] in *. lia.
Qed.

(** A trial that returns has made one call to the random source ([randint])
    when the sampled node's local energy is [> 0], and exactly two
    ([randint], then [random()]) when it is [<= 0].  A sweep that returns has
    therefore made at least [node_qty] and at most [2 * node_qty] calls. *)
Theorem update_random_calls fl rng node_qty T :
  (forall d c st',
      trial fl rng node_qty T (d, c) = Ok st' ->
      exists n self E,
        randint rng c 0 (node_qty - 1) = Ok n
        /\ dict_get d n = Some self
        /\ getE self d = Ok E
        /\ ((0 < E /\ snd st' = S c) \/ (E <= 0 /\ snd st' = S (S c))))
  /\ (forall d c d' c',
        update fl rng node_qty T (d, c) = Ok (d', c') ->
        (c + Z.to_nat node_qty <= c' <= c + 2 * Z.to_nat node_qty)%nat).
Proof.
  split.
  - intros d c st' H. eapply trial_calls; exact H.
  - intros d c d' c' H. apply trials_counter in H. exact H.
Qed.

(** A node without couplings has local energy 0: the trial takes both
    draws. *)
Lemma update_random_calls_witness :
  exists n self E,
    randint rng0 1 0 (1 - 1) = Ok n
    /\ dict_get [(0, mkNode 1 3 [])] n = Some self
    /\ getE self [(0, mkNode 1 3 [])] = Ok E
    /\ ((0 < E /\ snd ([(0, mkNode (-1) 3 [])], 3%nat) = 2%nat)
        \/ (E <= 0 /\ snd ([(0, mkNode (-1) 3 [])], 3%nat) = 3%nat)).
Proof.
  apply (proj1 (update_random_calls real_floats rng0 1 1%R) [(0, mkNode 1 3 [])] 1%nat
           ([(0, mkNode (-1) 3 [])], 3%nat)).
  exact (trial_zero_energy real_floats rng0 1 1%R [(0, mkNode 1 3 [])] 1%nat 0 (mkNode 1 3 [])
           eq_refl eq_refl eq_refl R1_neq_R0).
Defined.

(** ** Trials that always flip *)

(** A sampled node whose local energy is exactly 0 is flipped at every
    temperature other than 0: the acceptance threshold is [exp(0) = 1] and
    the uniform draw is below 1. *)
Theorem zero_energy_always_flips fl rng node_qty T d c n self :
  randint rng c 0 (node_qty - 1) = Ok n ->
  dict_get d n = Some self ->
  getE self d = Ok 0 ->
  T <> 0%R ->
  trial fl rng node_qty T (d, c) = Ok (dict_set d n (switchSpin self), S (S c)).
Proof.
  intros Hn Hself HE HT. apply trial_zero_energy; assumption.
Qed.

Lemma zero_energy_always_flips_witness :
  trial real_floats rng0 1 1 ([(0, mkNode 1 3 [])], 1%nat) = Ok ([(0, mkNode (-1) 3 [])], 3%nat).
Proof.
  apply (zero_energy_always_flips real_floats rng0 1 1%R [(0, mkNode 1 3 [])] 1%nat 0 (mkNode 1 3 [])).
  - reflexivity.
  - reflexivity.
  - reflexivity.
  - exact R1_neq_R0.
Defined.



(** ** modelE: no sweeps, and sweeps in two parts *)

(** With [I <= 0] [modelE] runs no sweep: on a constructed model it returns
    the energy of the spins as they are, leaves dictionary and random source
    untouched, and does so for every temperature, 0 included. *)
Theorem modelE_no_sweeps fl rng node_qty weights c m c' I T :
  Model_init rng node_qty weights c = Ok (m, c') ->
  I <= 0 ->
  modelE fl rng m node_qty I T (getNodes m, c')
  = Ok (- zsum (map (triple_energy (getNodes m)) weights), (getNodes m, c')).
Proof.
  intros Hm HI.
  pose proof (Model_init_establishes_inv _ _ _ _ _ _ Hm) as Hinv.
  destruct (Model_init_lists _ _ _ _ _ _ Hm) as [HJ HF].
  assert (Hrun : repeat_n (Z.to_nat I) (update fl rng node_qty T) (getNodes m, c')
                 = Ok (getNodes m, c')).
  { replace (Z.to_nat I) with 0%nat by lia. reflexivity. }
  rewrite (modelE_energy fl rng m node_qty I T _ _ Hrun Hinv HJ HF). cbn [fst].
  apply Model_init_inv in Hm. destruct Hm as (_ & _ & _ & -> & -> & _).
  rewrite total_energy_of_input. reflexivity.
Qed.

Lemma modelE_no_sweeps_witness :
  modelE real_floats rng0 (mkModel [(0, mkNode 1 0 [(1, 4)]); (1, mkNode (-1) 0 [(0, 4)])]
                       [(0, 1, 4)] []) 2 0 0
    (getNodes (mkModel [(0, mkNode 1 0 [(1, 4)]); (1, mkNode (-1) 0 [(0, 4)])]
                       [(0, 1, 4)] []), 2%nat)
  = Ok (- zsum (map (triple_energy
                       (getNodes (mkModel [(0, mkNode 1 0 [(1, 4)]); (1, mkNode (-1) 0 [(0, 4)])]
                                          [(0, 1, 4)] []))) [(0, 1, 4)]),
        (getNodes (mkModel [(0, mkNode 1 0 [(1, 4)]); (1, mkNode (-1) 0 [(0, 4)])]
                           [(0, 1, 4)] []), 2%nat)).
Proof.
  apply (modelE_no_sweeps real_floats rng0 2 [(0, 1, 4)] 0%nat
           (mkModel [(0, mkNode 1 0 [(1, 4)]); (1, mkNode (-1) 0 [(0, 4)])] [(0, 1, 4)] [])
           2%nat 0 0%R).
  - reflexivity.
  - lia.
Defined.

Lemma repeat_n_add {S} (a b : nat) (body : S -> result S) (st : S) :
  repeat_n (a + b) body st = (st1 <- repeat_n a body st ;; repeat_n b body st1).
Proof.
  revert st. induction a as [|a IH]; intros st; [reflexivity|].
  cbn [Nat.add repeat_n]. destruct (body st) as [st1|e]; cbn [bind]; auto.
Qed.

(** Running [I1 + I2] sweeps in one call of [modelE] is the same as running
    [I1] sweeps first and calling [modelE] with [I2] on the state they leave,
    errors included. *)
Theorem modelE_split fl rng model node_qty I1 I2 T st :
  0 <= I1 -> 0 <= I2 ->
  modelE fl rng model node_qty (I1 + I2) T st
  = (st1 <- repeat_n (Z.to_nat I1) (update fl rng node_qty T) st ;;
     modelE fl rng model node_qty I2 T st1).
Proof.
  intros H1 H2. unfold modelE. rewrite Z2Nat.inj_add by assumption.
  rewrite repeat_n_add.
  destruct (repeat_n (Z.to_nat I1) (update fl rng node_qty T) st); reflexivity.
Qed.

Lemma modelE_split_witness :
  modelE real_floats rng0 (mkModel [(0, mkNode 1 0 [(1, 1)]); (1, mkNode (-1) 0 [(0, 1)])] [(0, 1, 1)] [])
    2 (1 + 2) 1 ([(0, mkNode 1 0 [(1, 1)]); (1, mkNode (-1) 0 [(0, 1)])], 2%nat)
  = (st1 <- repeat_n (Z.to_nat 1) (update real_floats rng0 2 1)
              ([(0, mkNode 1 0 [(1, 1)]); (1, mkNode (-1) 0 [(0, 1)])], 2%nat) ;;
     modelE real_floats rng0 (mkModel [(0, mkNode 1 0 [(1, 1)]); (1, mkNode (-1) 0 [(0, 1)])]
                          [(0, 1, 1)] []) 2 2 1 st1).
Proof.
  apply (modelE_split real_floats rng0
           (mkModel [(0, mkNode 1 0 [(1, 1)]); (1, mkNode (-1) 0 [(0, 1)])] [(0, 1, 1)] [])
           2 1 2 1%R ([(0, mkNode 1 0 [(1, 1)]); (1, mkNode (-1) 0 [(0, 1)])], 2%nat)); lia.
Defined.

(** ** Local energy: missing neighbours and flips *)

(** [getE] raises [KeyError] for the first coupling entry, in list order,
    whose neighbour is not a key of the node table. *)
Theorem getE_raises_first_missing (self : Node) (d : dict) js1 p js2 :
  getJn self = js1 ++ p :: js2 ->
  (forall q, In q js1 -> dict_get d (fst q) <> None) ->
  dict_get d (fst p) = None ->
  getE self d = Raise (KeyError (fst p)).
Proof.
  intros HJ H1 Hp. unfold getE. rewrite HJ.
  rewrite (getE_loop_missing self d js1 js2 p 0 H1 Hp). reflexivity.
Qed.

Lemma getE_raises_first_missing_witness :
  getE (mkNode 1 0 [(1, 5); (4, 2); (9, 3)])
       [(0, mkNode 1 0 [(1, 5); (4, 2); (9, 3)]); (1, mkNode 1 0 [])]
  = Raise (KeyError (fst (4, 2))).
Proof.
  apply (getE_raises_first_missing (mkNode 1 0 [(1, 5); (4, 2); (9, 3)])
           [(0, mkNode 1 0 [(1, 5); (4, 2); (9, 3)]); (1, mkNode 1 0 [])]
           [(1, 5)] (4, 2) [(9, 3)]).
  - reflexivity.
  - intros q [<-|[]]. simpl. discriminate.
  - reflexivity.
Defined.

Lemma incident_not_self (k : Z) (ws : list (Z * Z * Z)) (p : Z * Z) :
  In p (incident k ws) -> fst p <> k.
Proof.
  unfold incident. rewrite in_flat_map. intros ([[w0 w1] w2] & _ & Hp).
  destruct (w0 =? w1) eqn:E01; [contradiction|]. apply Z.eqb_neq in E01.
  apply in_app_or in Hp. destruct Hp as [Hp|Hp].
  - destruct (w0 =? k) eqn:E0; [|contradiction]. apply Z.eqb_eq in E0.
    destruct Hp as [<-|[]]. simpl. congruence.
  - destruct (w1 =? k) eqn:E1; [|contradiction]. apply Z.eqb_eq in E1.
    destruct Hp as [<-|[]]. simpl. congruence.
Qed.

(** In every state of a run each node still has the coupling list and the
    field that the construction gave it. *)
Lemma reachable_node_shape fl rng node_qty weights c m c' T st k nd :
  Model_init rng node_qty weights c = Ok (m, c') ->
  reachable fl rng node_qty T (nodes m, c') st ->
  dict_get (fst st) k = Some nd ->
  Jn nd = incident k weights /\ h nd = last_field k weights 0.
Proof.
  intros Hm Hreach Hk. apply reachable_same_but_spin in Hreach.
  destruct Hreach as [_ Hsame]. destruct (Hsame k nd Hk) as (nd0 & H0 & Hh & HJ & _).
  apply Model_init_inv in Hm. destruct Hm as (_ & _ & N & _).
  cbn [fst] in H0. destruct (N k nd0 H0) as (_ & J0 & F0). split; congruence.
Qed.

Lemma zsum_map_opp {A} (f g : A -> Z) (l : list A) :
  (forall a, In a l -> g a = - f a) -> zsum (map g l) = - zsum (map f l).
Proof.
  induction l as [|a l IH]; intros H; [reflexivity|].
  cbn [map zsum fold_right]. fold (zsum (map g l)). fold (zsum (map f l)).
  rewrite IH by (intros b Hb; apply H; right; assumption).
  rewrite (H a (or_introl eq_refl)). lia.
Qed.

Lemma spin_of_flipped (d : dict) n self k :
  dict_get d n = Some self ->
  spin_of (dict_set d n (switchSpin self)) k
  = if n =? k then - spin_of d k else spin_of d k.
Proof.
  intros Hn. unfold spin_of. rewrite dict_get_set.
  destruct (n =? k) eqn:E; [|reflexivity].
  apply Z.eqb_eq in E. subst k. rewrite Hn. reflexivity.
Qed.

(** In a run of a constructed model, flipping a node negates its own local
    energy: if node [n] has local energy [E], then after [switchSpin] on it
    its local energy is [-E].  So a flip taken because [E > 0] leaves the
    node at a negative local energy. *)
Theorem flip_negates_local_energy fl rng node_qty weights c m c' T st n self E :
  Model_init rng node_qty weights c = Ok (m, c') ->
  reachable fl rng node_qty T (getNodes m, c') st ->
  dict_get (fst st) n = Some self ->
  getE self (fst st) = Ok E ->
  exists d',
    call_on (fst st) n switchSpin = Ok d'
    /\ dict_get d' n = Some (switchSpin self)
    /\ getE (switchSpin self) d' = Ok (- E).
Proof.
  intros Hm Hreach Hself HE.
  pose proof (Model_init_establishes_inv _ _ _ _ _ _ Hm) as Hinv0.
  pose proof (reachable_inv fl rng node_qty T (getNodes m, c') st Hinv0 Hreach) as Hinv.
  destruct (reachable_node_shape fl rng node_qty weights c m c' T st n self Hm Hreach Hself) as [HJ _].
  exists (dict_set (fst st) n (switchSpin self)).
  assert (Hget : dict_get (dict_set (fst st) n (switchSpin self)) n = Some (switchSpin self)).
  { rewrite dict_get_set, Z.eqb_refl. reflexivity. }
  split; [apply call_on_ok; assumption|]. split; [assumption|].
  rewrite (inv_getE node_qty _ n (switchSpin self)
             (flip_inv node_qty (fst st) n self Hinv Hself) Hget).
  rewrite (inv_getE node_qty (fst st) n self Hinv Hself) in HE.
  injection HE as <-. f_equal. unfold local_energy_spec. f_equal.
  cbn [Jn h spin switchSpin]. apply zsum_map_opp.
  intros p Hp. rewrite HJ in Hp. apply incident_not_self in Hp.
  rewrite (spin_of_flipped _ _ _ _ Hself).
  destruct (n =? fst p) eqn:Enp; [apply Z.eqb_eq in Enp; congruence|]. lia.
Qed.

Lemma flip_negates_local_energy_witness :
  exists d',
    call_on (fst ([(0, mkNode 1 0 [(1, 1)]); (1, mkNode (-1) 0 [(0, 1)])], 2%nat)) 0 switchSpin
    = Ok d'
    /\ dict_get d' 0 = Some (switchSpin (mkNode 1 0 [(1, 1)]))
    /\ getE (switchSpin (mkNode 1 0 [(1, 1)])) d' = Ok (- 1).
Proof.
  exact (flip_negates_local_energy real_floats rng0 2 [(0, 1, 1)] 0%nat
           (mkModel [(0, mkNode 1 0 [(1, 1)]); (1, mkNode (-1) 0 [(0, 1)])] [(0, 1, 1)] [])
           2%nat 1%R
           ([(0, mkNode 1 0 [(1, 1)]); (1, mkNode (-1) 0 [(0, 1)])], 2%nat)
           0 (mkNode 1 0 [(1, 1)]) 1
           eq_refl (reach_refl _ _ _ _ _) eq_refl eq_refl).
Defined.

(** ** Total energy and a single flip *)

Lemma zsum_app (l1 l2 : list Z) : zsum (l1 ++ l2) = zsum l1 + zsum l2.
Proof.
  unfold zsum. induction l1 as [|x l1 IH]; cbn [app fold_right]; [reflexivity|].
  rewrite IH. lia.
Qed.

Lemma zsum_map_ext {A} (f g : A -> Z) (l : list A) :
  (forall a, In a l -> f a = g a) -> zsum (map f l) = zsum (map g l).
Proof.
  intros H. f_equal. apply map_ext_in. assumption.
Qed.

Lemma edge_sum_flip (d : dict) n self (ws : list (Z * Z * Z)) :
  (forall w, In w ws -> is_edge w = true) ->
  dict_get d n = Some self ->
  zsum (map (triple_energy (dict_set d n (switchSpin self))) ws)
  = zsum (map (triple_energy d) ws)
    - 2 * zsum (map (fun p => snd p * spin self * spin_of d (fst p)) (incident n ws)).
Proof.
  intros Hedge Hn.
  assert (Hs : spin self = spin_of d n) by (unfold spin_of; rewrite Hn; reflexivity).
  induction ws as [|[[a b] x] ws IH]; [reflexivity|].
  assert (IH' := IH (fun w Hw => Hedge w (or_intror Hw))). clear IH.
  pose proof (Hedge (a, b, x) (or_introl eq_refl)) as He.
  unfold incident in *. cbn [map flat_map]. rewrite map_app, !zsum_app.
  cbn [zsum fold_right] in *. fold (zsum (map (triple_energy (dict_set d n (switchSpin self))) ws)).
  fold (zsum (map (triple_energy d) ws)). rewrite IH'.
  unfold triple_energy at 1 3. unfold is_edge, is_field in *. cbn [fst snd] in *.
  apply negb_true_iff in He. rewrite He.
  rewrite !(spin_of_flipped d n self _ Hn).
  rewrite (Z.eqb_sym a n), (Z.eqb_sym b n).
  destruct (n =? a) eqn:Ea; destruct (n =? b) eqn:Eb.
  - apply Z.eqb_eq in Ea, Eb. apply Z.eqb_neq in He. congruence.
  - apply Z.eqb_eq in Ea. subst a. cbn [map app fst snd]. rewrite Hs.
    unfold zsum. cbn [fold_right]. ring.
  - apply Z.eqb_eq in Eb. subst b. cbn [map app fst snd]. rewrite Hs.
    unfold zsum. cbn [fold_right]. ring.
  - cbn [map app]. unfold zsum. cbn [fold_right]. ring.
Qed.

(** In a model built from triples without self-loops, flipping a node whose
    local energy is [E] changes the total energy that [modelE] reports by
    exactly [-2*E]: a flip taken on [E > 0] lowers the total energy, a flip
    taken on [E < 0] raises it. *)
Theorem flip_changes_total_energy fl rng node_qty weights c m c' T d cs n self E :
  Model_init rng node_qty weights c = Ok (m, c') ->
  (forall w, In w weights -> is_edge w = true) ->
  reachable fl rng node_qty T (getNodes m, c') (d, cs) ->
  dict_get d n = Some self ->
  getE self d = Ok E ->
  exists H,
    modelE fl rng m node_qty 0 T (d, cs) = Ok (H, (d, cs))
    /\ modelE fl rng m node_qty 0 T (dict_set d n (switchSpin self), cs)
       = Ok (H - 2 * E, (dict_set d n (switchSpin self), cs)).
Proof.
  intros Hm Hedge Hreach Hself HE.
  pose proof (Model_init_establishes_inv _ _ _ _ _ _ Hm) as Hinv0.
  pose proof (reachable_inv fl rng node_qty T (getNodes m, c') (d, cs) Hinv0 Hreach) as Hinv.
  cbn [fst] in Hinv.
  destruct (reachable_node_shape fl rng node_qty weights c m c' T (d, cs) n self Hm Hreach Hself) as [HJ Hh].
  destruct (Model_init_lists _ _ _ _ _ _ Hm) as [HJs Hhs].
  pose proof (Model_init_inv _ _ _ _ _ _ Hm) as (_ & _ & _ & EJ & EH & _).
  exists (- zsum (map (triple_energy d) weights)). split.
  - rewrite (modelE_energy fl rng m node_qty 0 T (d, cs) (d, cs) eq_refl Hinv HJs Hhs).
    cbn [fst]. rewrite EJ, EH, total_energy_of_input. reflexivity.
  - rewrite (modelE_energy fl rng m node_qty 0 T
               (dict_set d n (switchSpin self), cs) (dict_set d n (switchSpin self), cs)
               eq_refl (flip_inv node_qty d n self Hinv Hself) HJs Hhs).
    cbn [fst]. rewrite EJ, EH, total_energy_of_input.
    rewrite (edge_sum_flip d n self weights Hedge Hself).
    rewrite (inv_getE node_qty d n self Hinv Hself) in HE. injection HE as <-.
    do 2 f_equal. unfold local_energy_spec. rewrite HJ, Hh.
    rewrite last_field_untouched.
    + assert (Hz : zsum (map (fun p => 0 * spin self + snd p * spin self * spin_of d (fst p))
                             (incident n weights))
                   = zsum (map (fun p => snd p * spin self * spin_of d (fst p))
                               (incident n weights))).
      { apply zsum_map_ext. intros a _. ring. }
      rewrite Hz. ring.
    + intros w Hw. apply Hedge in Hw. unfold is_edge in Hw. cbn [fst snd] in Hw.
      rewrite Z.eqb_refl in Hw. discriminate.
Qed.

Lemma flip_changes_total_energy_witness :
  exists H,
    modelE real_floats rng0 (mkModel [(0, mkNode 1 0 [(1, 3)]); (1, mkNode (-1) 0 [(0, 3)])]
                         [(0, 1, 3)] []) 2 0 1
      ([(0, mkNode 1 0 [(1, 3)]); (1, mkNode (-1) 0 [(0, 3)])], 2%nat)
    = Ok (H, ([(0, mkNode 1 0 [(1, 3)]); (1, mkNode (-1) 0 [(0, 3)])], 2%nat))
    /\ modelE real_floats rng0 (mkModel [(0, mkNode 1 0 [(1, 3)]); (1, mkNode (-1) 0 [(0, 3)])]
                           [(0, 1, 3)] []) 2 0 1
         (dict_set [(0, mkNode 1 0 [(1, 3)]); (1, mkNode (-1) 0 [(0, 3)])] 0
            (switchSpin (mkNode 1 0 [(1, 3)])), 2%nat)
       = Ok (H - 2 * 3,
             (dict_set [(0, mkNode 1 0 [(1, 3)]); (1, mkNode (-1) 0 [(0, 3)])] 0
                (switchSpin (mkNode 1 0 [(1, 3)])), 2%nat)).
Proof.
  apply (flip_changes_total_energy real_floats rng0 2 [(0, 1, 3)] 0%nat
           (mkModel [(0, mkNode 1 0 [(1, 3)]); (1, mkNode (-1) 0 [(0, 3)])] [(0, 1, 3)] [])
           2%nat 1%R).
  - reflexivity.
  - intros w [<-|[]]. reflexivity.
  - apply reach_refl.
  - reflexivity.
  - reflexivity.
Defined.

Example flip_changes_total_energy_values :
  modelE real_floats rng0 (mkModel [(0, mkNode 1 0 [(1, 3)]); (1, mkNode (-1) 0 [(0, 3)])]
                       [(0, 1, 3)] []) 2 0 1
    ([(0, mkNode 1 0 [(1, 3)]); (1, mkNode (-1) 0 [(0, 3)])], 2%nat)
  = Ok (3, ([(0, mkNode 1 0 [(1, 3)]); (1, mkNode (-1) 0 [(0, 3)])], 2%nat))
  /\ modelE real_floats rng0 (mkModel [(0, mkNode 1 0 [(1, 3)]); (1, mkNode (-1) 0 [(0, 3)])]
                         [(0, 1, 3)] []) 2 0 1
       ([(0, mkNode (-1) 0 [(1, 3)]); (1, mkNode (-1) 0 [(0, 3)])], 2%nat)
     = Ok (-3, ([(0, mkNode (-1) 0 [(1, 3)]); (1, mkNode (-1) 0 [(0, 3)])], 2%nat)).
Proof. split; reflexivity. Qed.

(** * Reading the instance *)

(** ** parse_data *)

Lemma for_lines_app {A S} (body : S -> A -> outcome S) xs ys acc :
  for_lines body (xs ++ ys) acc
  = (acc' <~ for_lines body xs acc ;; for_lines body ys acc').
Proof.
  revert acc. induction xs as [|x xs IH]; intros acc; cbn [app for_lines]; [reflexivity|].
  destruct (body acc x); cbn [obind]; auto.
Qed.

Lemma obind_return {A B} (m : outcome A) (f : A -> outcome B) (r : B) :
  obind m f = Return r -> exists a, m = Return a /\ f a = Return r.
Proof. destruct m as [a|e]; cbn [obind]; intros H; [eauto | discriminate]. Qed.

Lemma parse_line_comment b acc l :
  is_comment l = true -> parse_line b acc l = Return acc.
Proof.
  destruct l as [|ch l]; [discriminate|]. cbn [is_comment]. intros H.
  unfold parse_line, index. cbn [nth_error obind]. rewrite H. reflexivity.
Qed.

(** Lines that begin with 'c' are skipped wherever they stand: removing one
    changes neither the result nor the exception of [parse_data]. *)
Theorem parse_data_skips_comments b l1 cl l2 :
  is_comment cl = true ->
  parse_data b (l1 ++ cl :: l2) = parse_data b (l1 ++ l2).
Proof.
  intros Hc. unfold parse_data. rewrite !for_lines_app.
  destruct (for_lines (parse_line b) l1 (None, [])) as [acc|e]; [|reflexivity].
  cbn [obind for_lines]. rewrite parse_line_comment by assumption. reflexivity.
Qed.

Lemma parse_data_skips_comments_witness :
  parse_data ascii_builtins
    ([str_of "p x 2"] ++ str_of "c 0 1 oops" :: [str_of "0 1 5"])
  = parse_data ascii_builtins ([str_of "p x 2"] ++ [str_of "0 1 5"]).
Proof.
  apply (parse_data_skips_comments ascii_builtins [str_of "p x 2"] (str_of "c 0 1 oops")
           [str_of "0 1 5"]).
  reflexivity.
Defined.

Lemma parse_line_not_problem b q ws l q' ws' :
  is_problem l = false ->
  parse_line b (q, ws) l = Return (q', ws') -> q' = q.
Proof.
  destruct l as [|ch l]; [discriminate|]. cbn [is_problem]. intros Hp.
  unfold parse_line, index. cbn [nth_error obind]. rewrite Hp.
  destruct (ch =? chr_c)%N.
  - intros [= <- _]. reflexivity.
  - destruct (map_int b (split_ws b [] (ch :: l))); cbn [obind fst snd]; [|discriminate].
    intros [= <- _]. reflexivity.
Qed.

Lemma for_lines_no_problem b lines q ws q' ws' :
  (forall l, In l lines -> is_problem l = false) ->
  for_lines (parse_line b) lines (q, ws) = Return (q', ws') -> q' = q.
Proof.
  revert q ws. induction lines as [|l lines IH]; intros q ws Hno H.
  - injection H as <- _. reflexivity.
  - cbn [for_lines] in H. apply obind_return in H.
    destruct H as ([q1 ws1] & H1 & H).
    apply parse_line_not_problem in H1; [|apply Hno; left; reflexivity]. subst q1.
    eapply IH; [|exact H]. intros l' Hl'. apply Hno. right. assumption.
Qed.

(** Without a line that begins with 'p', [parse_data] never returns: if the
    loop gets through all lines, the final [return] finds [node_qty] unbound
    and raises [UnboundLocalError]. *)
Theorem parse_data_needs_problem_line b lines :
  (forall l, In l lines -> is_problem l = false) ->
  (forall r, parse_data b lines <> Return r)
  /\ (forall acc, for_lines (parse_line b) lines (None, []) = Return acc ->
        parse_data b lines = Throw UnboundLocalError).
Proof.
  intros Hno.
  assert (Hacc : forall acc, for_lines (parse_line b) lines (None, []) = Return acc ->
                             parse_data b lines = Throw UnboundLocalError).
  { intros [q ws] H. unfold parse_data. rewrite H. cbn [obind fst].
    apply for_lines_no_problem in H; [|assumption]. subst q. reflexivity. }
  split; [|exact Hacc].
  intros r H. pose proof H as H'. unfold parse_data in H'.
  apply obind_return in H'. destruct H' as (acc & Hl & _).
  rewrite (Hacc acc Hl) in H. discriminate.
Qed.

Lemma parse_data_needs_problem_line_witness :
  parse_data ascii_builtins [str_of "c two nodes"; str_of "0 1 5"] = Throw UnboundLocalError.
Proof.
  refine (proj2 (parse_data_needs_problem_line ascii_builtins
                   [str_of "c two nodes"; str_of "0 1 5"] _) (None, [[0; 1; 5]]) eq_refl).
  intros l [<-|[<-|[]]]; reflexivity.
Defined.

Lemma parse_line_inv b q ws l q' ws' :
  parse_line b (q, ws) l = Return (q', ws') ->
  l <> []
  /\ ((is_comment l = true /\ q' = q /\ ws' = ws)
      \/ (is_problem l = true /\ ws' = ws
          /\ exists x n, nth_error (split_on chr_space [] l) 2 = Some x
                         /\ int_of_str b x = Some n /\ q' = Some n)
      \/ (is_data l = true /\ q' = q
          /\ exists t, map_int b (split_ws b [] l) = Return t /\ ws' = ws ++ [t])).
Proof.
  destruct l as [|ch l]; [discriminate|]. intros H. split; [discriminate|].
  unfold parse_line in H. change (index (ch :: l) 0) with (Return ch) in H.
  cbn [obind] in H. cbn [is_comment is_problem is_data].
  destruct (ch =? chr_c)%N eqn:Ec.
  - injection H as <- <-. left. auto.
  - destruct (ch =? chr_p)%N eqn:Ep.
    + right. left. unfold index in H.
      destruct (nth_error (split_on chr_space [] (ch :: l)) 2) as [x|] eqn:Ex;
        cbn [obind] in H; [|discriminate].
      destruct (int_of_str b x) as [n|] eqn:En; [|discriminate].
      injection H as <- <-. eauto 8.
    + right. right.
      destruct (map_int b (split_ws b [] (ch :: l))) as [t|] eqn:Et;
        cbn [obind fst snd] in H; [|discriminate].
      injection H as <- <-. eauto 8.
Qed.

Lemma is_data_kinds (l : str) :
  is_data l = negb (is_comment l) && negb (is_problem l) && truthy l.
Proof.
  destruct l as [|ch l]; [reflexivity|]. cbn. rewrite andb_true_r. reflexivity.
Qed.

Lemma for_lines_parse_inv b lines q ws q' ws' :
  for_lines (parse_line b) lines (q, ws) = Return (q', ws') ->
  (forall l, In l lines -> l <> [])
  /\ (exists ts, ws' = ws ++ ts
                 /\ Forall2 (fun l t => map_int b (split_ws b [] l) = Return t)
                            (filter is_data lines) ts)
  /\ (((forall l, In l lines -> is_problem l = false) /\ q' = q)
      \/ exists pre pl post x n,
           lines = pre ++ pl :: post /\ is_problem pl = true
           /\ (forall l, In l post -> is_problem l = false)
           /\ nth_error (split_on chr_space [] pl) 2 = Some x
           /\ int_of_str b x = Some n /\ q' = Some n).
Proof.
  revert q ws. induction lines as [|l lines IH]; intros q ws H.
  - injection H as <- <-. split; [intros l []|]. split.
    + exists []. rewrite app_nil_r. split; [reflexivity | constructor].
    + left. split; [intros l []|reflexivity].
  - cbn [for_lines] in H. apply obind_return in H.
    destruct H as ([q1 ws1] & H1 & H).
    apply parse_line_inv in H1. destruct H1 as (Hne & Hkind).
    apply IH in H. destruct H as (Hall & (ts & Hws & HF) & Hp).
    split; [intros l' [<-|Hl']; auto|].
    assert (Hdata : is_data l = negb (is_comment l) && negb (is_problem l) && truthy l)
      by apply is_data_kinds.
    split.
    + cbn [filter]. destruct Hkind as [(Hc & -> & ->) | [(Hpl & -> & _) | (Hd & -> & t & Ht & ->)]].
      * rewrite Hdata, Hc. cbn [negb andb]. eauto.
      * rewrite Hdata, Hpl. rewrite andb_false_r. cbn [andb]. eauto.
      * rewrite Hd. exists (t :: ts). rewrite Hws, <- app_assoc. split; [reflexivity|].
        constructor; assumption.
    + destruct Hp as [(Hno & ->) | (pre & pl & post & x & n & -> & Hpl & Hpost & Hx & Hn & ->)].
      * destruct Hkind as [(Hc & -> & _) | [(Hpl & _ & x & n & Hx & Hn & ->) | (Hd & -> & _)]].
        -- left. split; [|reflexivity]. intros l' [<-|Hl']; [|auto].
           destruct l as [|ch l]; [reflexivity|]. cbn in *.
           apply N.eqb_eq in Hc. subst ch. reflexivity.
        -- right. exists [], l, lines, x, n. auto 8.
        -- left. split; [|reflexivity]. intros l' [<-|Hl']; [|auto].
           rewrite Hdata in Hd. apply andb_true_iff in Hd. destruct Hd as [Hd _].
           apply andb_true_iff in Hd. destruct Hd as [_ Hd].
           apply negb_true_iff in Hd. assumption.
      * right. exists (l :: pre), pl, post, x, n. auto 8.
Qed.

(** What a successful [parse_data] returns: every line is non-empty;
    [node_qty] is [int] of the third field, fields being separated by single
    blanks, of the last line that begins with 'p'; [weights] holds, in
    order, one tuple for each line that begins with neither 'c' nor 'p', the
    tuple being [int] of each whitespace-separated token of that line. *)
Theorem parse_data_returns b lines node_qty weights :
  parse_data b lines = Return (node_qty, weights) ->
  (forall l, In l lines -> l <> [])
  /\ (exists pre pl post x,
        lines = pre ++ pl :: post /\ is_problem pl = true
        /\ (forall l, In l post -> is_problem l = false)
        /\ nth_error (split_on chr_space [] pl) 2 = Some x
        /\ int_of_str b x = Some node_qty)
  /\ Forall2 (fun l t => map_int b (split_ws b [] l) = Return t)
             (filter is_data lines) weights.
Proof.
  intros H. unfold parse_data in H. apply obind_return in H.
  destruct H as ([q ws] & Hl & H). cbn [fst snd] in H.
  destruct q as [n|]; [|discriminate]. injection H as <- <-.
  apply for_lines_parse_inv in Hl.
  destruct Hl as (Hne & (ts & Hws & HF) & Hp). cbn [app] in Hws. subst ts.
  split; [assumption|]. split; [|assumption].
  destruct Hp as [(_ & Hq) | (pre & pl & post & x & n' & Hlines & Hpl & Hpost & Hx & Hn & Hq)].
  - discriminate.
  - injection Hq as ->. exists pre, pl, post, x. auto.
Qed.

Lemma parse_data_returns_witness :
  (forall l, In l [str_of "p a 9"; str_of "0 1 5"; str_of "p b 2"; str_of "1 1 -3"] -> l <> [])
  /\ (exists pre pl post x,
        [str_of "p a 9"; str_of "0 1 5"; str_of "p b 2"; str_of "1 1 -3"]
        = pre ++ pl :: post /\ is_problem pl = true
        /\ (forall l, In l post -> is_problem l = false)
        /\ nth_error (split_on chr_space [] pl) 2 = Some x
        /\ int_of_str ascii_builtins x = Some 2)
  /\ Forall2 (fun l t => map_int ascii_builtins (split_ws ascii_builtins [] l) = Return t)
             (filter is_data [str_of "p a 9"; str_of "0 1 5"; str_of "p b 2"; str_of "1 1 -3"])
             [[0; 1; 5]; [1; 1; -3]].
Proof.
  apply (parse_data_returns ascii_builtins
           [str_of "p a 9"; str_of "0 1 5"; str_of "p b 2"; str_of "1 1 -3"] 2
           [[0; 1; 5]; [1; 1; -3]]).
  reflexivity.
Defined.

Lemma split_on_length (sep : N) (cur s : str) :
  length (split_on sep cur s) = S (count_occ N.eq_dec s sep).
Proof.
  revert cur. induction s as [|ch s IH]; intros cur; [reflexivity|].
  cbn [split_on count_occ]. destruct (N.eq_dec ch sep) as [->|Hne].
  - rewrite N.eqb_refl. cbn [length]. rewrite IH. reflexivity.
  - apply N.eqb_neq in Hne. rewrite Hne. apply IH.
Qed.

(** When the lines before it are read without error, an empty line, or a
    line that begins with 'p' and holds fewer than two blanks (so fewer than
    three fields), makes [parse_data] raise [IndexError]. *)
Theorem parse_data_index_error b pre acc l rest :
  for_lines (parse_line b) pre (None, []) = Return acc ->
  l = [] \/ (is_problem l = true /\ (count_occ N.eq_dec l chr_space < 2)%nat) ->
  parse_data b (pre ++ l :: rest) = Throw IndexError.
Proof.
  intros Hpre Hl. unfold parse_data. rewrite for_lines_app, Hpre. cbn [obind for_lines].
  assert (Hline : parse_line b acc l = Throw IndexError).
  { destruct Hl as [->|[Hp Hcount]]; [reflexivity|].
    destruct l as [|ch l]; [discriminate|]. cbn [is_problem] in Hp.
    unfold parse_line. change (index (ch :: l) 0) with (Return ch). cbn [obind].
    rewrite Hp. destruct (ch =? chr_c)%N eqn:Ec.
    { apply N.eqb_eq in Ec, Hp. rewrite Ec in Hp. discriminate. }
    unfold index.
    destruct (nth_error (split_on chr_space [] (ch :: l)) 2) as [x|] eqn:Ex; [|reflexivity].
    assert (Hlen : (2 < length (split_on chr_space [] (ch :: l)))%nat).
    { apply nth_error_Some. congruence. }
    rewrite split_on_length in Hlen. lia. }
  rewrite Hline. reflexivity.
Qed.

Lemma parse_data_index_error_witness :
  parse_data ascii_builtins ([str_of "c header"] ++ str_of "p 5" :: [str_of "0 1 2"])
  = Throw IndexError.
Proof.
  apply (parse_data_index_error ascii_builtins [str_of "c header"] (None, [])
           (str_of "p 5") [str_of "0 1 2"]).
  - reflexivity.
  - right. split; [reflexivity|]. vm_compute. lia.
Defined.

Lemma split_on_no_sep (sep : N) (cur f : str) :
  (forall ch, In ch f -> ch <> sep) -> split_on sep cur f = [rev cur ++ f].
Proof.
  revert cur. induction f as [|ch f IH]; intros cur Hno.
  - cbn [split_on]. rewrite app_nil_r. reflexivity.
  - cbn [split_on]. assert (Hch : ch <> sep) by (apply Hno; left; reflexivity).
    apply N.eqb_neq in Hch. rewrite Hch.
    rewrite IH by (intros c Hc; apply Hno; right; assumption).
    cbn [rev]. rewrite <- app_assoc. reflexivity.
Qed.

Lemma split_on_field (sep : N) (cur f rest : str) :
  (forall ch, In ch f -> ch <> sep) ->
  split_on sep cur (f ++ sep :: rest) = (rev cur ++ f) :: split_on sep [] rest.
Proof.
  revert cur. induction f as [|ch f IH]; intros cur Hno.
  - cbn [app split_on]. rewrite N.eqb_refl, app_nil_r. reflexivity.
  - cbn [app split_on]. assert (Hch : ch <> sep) by (apply Hno; left; reflexivity).
    apply N.eqb_neq in Hch. rewrite Hch.
    rewrite IH by (intros c Hc; apply Hno; right; assumption).
    cbn [rev]. rewrite <- app_assoc. reflexivity.
Qed.

(** The node count is read from a line of the shape
    [p<f0> <f1> <f2>] or [p<f0> <f1> <f2> <more>], the fields holding no
    blank: it is [int] of [f2].  The fields are cut at single blanks, so a
    doubled blank shifts them. *)
Theorem parse_data_problem_line b f0 f1 f2 more n :
  (forall ch, In ch (f0 ++ f1 ++ f2) -> ch <> chr_space) ->
  more = [] \/ (exists t, more = chr_space :: t) ->
  int_of_str b f2 = Some n ->
  parse_data b [(chr_p :: f0) ++ chr_space :: f1 ++ chr_space :: f2 ++ more]
  = Return (n, []).
Proof.
  intros Hno Hmore Hint.
  assert (H0 : forall ch, In ch (chr_p :: f0) -> ch <> chr_space).
  { intros ch [<-|Hc]; [discriminate|]. apply Hno. apply in_or_app. auto. }
  assert (H1 : forall ch, In ch f1 -> ch <> chr_space).
  { intros ch Hc. apply Hno. apply in_or_app. right. apply in_or_app. auto. }
  assert (H2 : forall ch, In ch f2 -> ch <> chr_space).
  { intros ch Hc. apply Hno. apply in_or_app. right. apply in_or_app. auto. }
  assert (Hfield : nth_error
                     (split_on chr_space []
                        ((chr_p :: f0) ++ chr_space :: f1 ++ chr_space :: f2 ++ more)) 2
                   = Some f2).
  { rewrite (split_on_field chr_space [] (chr_p :: f0)) by assumption.
    rewrite (split_on_field chr_space [] f1) by assumption.
    destruct Hmore as [->|(t & ->)].
    - rewrite app_nil_r, split_on_no_sep by assumption. reflexivity.
    - rewrite split_on_field by assumption. reflexivity. }
  unfold parse_data. cbn [for_lines]. unfold parse_line.
  change (index ((chr_p :: f0) ++ chr_space :: f1 ++ chr_space :: f2 ++ more) 0)
    with (@Return N chr_p).
  cbn [obind]. change (chr_p =? chr_c)%N with false. change (chr_p =? chr_p)%N with true.
  cbv iota. unfold index. rewrite Hfield. cbn [obind]. rewrite Hint. reflexivity.
Qed.

Lemma parse_data_problem_line_witness :
  parse_data ascii_builtins
    [(chr_p :: str_of "") ++ chr_space :: str_of "ising" ++ chr_space :: str_of "12"
       ++ str_of " 40"]
  = Return (12, []).
Proof.
  apply (parse_data_problem_line ascii_builtins (str_of "") (str_of "ising") (str_of "12")
           (str_of " 40") 12).
  - intros ch Hin. vm_compute in Hin.
    repeat (destruct Hin as [<-|Hin]; [discriminate|]). contradiction.
  - right. eexists. reflexivity.
  - reflexivity.
Defined.

Example parse_data_doubled_blank :
  parse_data ascii_builtins [str_of "p  ising 12"] = Throw (Core ValueError)
  /\ parse_data ascii_builtins [str_of "p ising 12"] = Return (12, []).
Proof. split; reflexivity. Qed.

(** ** get_data *)

Lemma lstrip_decompose b (s : str) :
  exists pre, s = pre ++ lstrip b s.
Proof.
  induction s as [|ch s (pre & IH)]; [exists []; reflexivity|].
  cbn [lstrip]. destruct (isspace b ch).
  - exists (ch :: pre). cbn [app]. f_equal. assumption.
  - exists []. reflexivity.
Qed.

Lemma lstrip_head b (s : str) ch r :
  lstrip b s = ch :: r -> isspace b ch = false.
Proof.
  induction s as [|c s IH]; [discriminate|].
  cbn [lstrip]. destruct (isspace b c) eqn:Ec; [assumption|].
  intros [= <- _]. assumption.
Qed.

Lemma lstrip_fixed b (s : str) :
  (forall ch r, s = ch :: r -> isspace b ch = false) -> lstrip b s = s.
Proof.
  destruct s as [|ch r]; [reflexivity|]. intros H. cbn [lstrip].
  rewrite (H ch r eq_refl). reflexivity.
Qed.

Lemma strip_ends b (x : str) :
  (forall ch r, strip b x = ch :: r -> isspace b ch = false)
  /\ (forall ch r, strip b x = r ++ [ch] -> isspace b ch = false).
Proof.
  unfold strip. split.
  - intros ch r H.
    destruct (lstrip_decompose b (rev (lstrip b x))) as (pre & Hpre).
    assert (Hy : lstrip b x = rev (lstrip b (rev (lstrip b x))) ++ rev pre).
    { rewrite <- rev_app_distr, <- Hpre, rev_involutive. reflexivity. }
    rewrite H in Hy. cbn [app] in Hy. eapply lstrip_head. exact Hy.
  - intros ch r H.
    assert (Hrev : lstrip b (rev (lstrip b x)) = ch :: rev r).
    { rewrite <- (rev_involutive (lstrip b (rev (lstrip b x)))), H, rev_app_distr.
      reflexivity. }
    eapply lstrip_head. exact Hrev.
Qed.

(** Every line that [get_data] returns is non-empty and neither begins nor
    ends with a whitespace character, and stripping it again changes nothing.
    So the subscript [l[0]] of [parse_data] is always defined on the output
    of [get_data], and an indented comment or 'p' line is recognised by its
    first visible character. *)
Theorem get_data_lines_stripped b contents l :
  In l (get_data b contents) ->
  l <> []
  /\ (exists x, In x (splitlines b contents) /\ l = strip b x)
  /\ (forall ch r, l = ch :: r -> isspace b ch = false)
  /\ (forall ch r, l = r ++ [ch] -> isspace b ch = false)
  /\ strip b l = l
  /\ (exists ch, index l 0 = Return ch).
Proof.
  unfold get_data. rewrite in_map_iff. intros (x & <- & Hx).
  apply filter_In in Hx. destruct Hx as [Hx Htruthy].
  destruct (strip_ends b x) as [Hhead Hlast].
  assert (Hne : strip b x <> []).
  { destruct (strip b x); [discriminate | congruence]. }
  split; [assumption|]. split; [eauto|]. split; [assumption|]. split; [assumption|].
  split.
  - unfold strip at 1. rewrite (lstrip_fixed b (strip b x)) by assumption.
    rewrite lstrip_fixed; [apply rev_involutive|].
    intros ch r Hr. apply (Hlast ch (rev r)).
    rewrite <- (rev_involutive (strip b x)), Hr. reflexivity.
  - destruct (strip b x) as [|ch r]; [congruence|]. exists ch. reflexivity.
Qed.

Lemma get_data_lines_stripped_witness :
  str_of "0 1 5" <> []
  /\ (exists x, In x (splitlines ascii_builtins
                        (10 :: str_of "c hi" ++ 10 :: 10 :: str_of "   0 1 5  " ++ [10]))%N
                /\ str_of "0 1 5" = strip ascii_builtins x)
  /\ (forall ch r, str_of "0 1 5" = ch :: r -> isspace ascii_builtins ch = false)
  /\ (forall ch r, str_of "0 1 5" = r ++ [ch] -> isspace ascii_builtins ch = false)
  /\ strip ascii_builtins (str_of "0 1 5") = str_of "0 1 5"
  /\ (exists ch, index (str_of "0 1 5") 0 = Return ch).
Proof.
  apply (get_data_lines_stripped ascii_builtins
           (10 :: str_of "c hi" ++ 10 :: 10 :: str_of "   0 1 5  " ++ [10])%N).
  vm_compute. right. left. reflexivity.
Defined.

Example get_data_drops_blank_lines :
  get_data ascii_builtins
    (10 :: str_of "c hi" ++ 13 :: 10 :: 10 :: str_of "  " ++ 10 :: str_of "   0 1 5  " ++ [10])%N
  = [str_of "c hi"; str_of "0 1 5"].
Proof. reflexivity. Qed.

(** ** Model.__init__ on the tuples of parse_data *)

Lemma add_weight_tuple_triple (m : Model) (w : list Z) :
  (3 <= length w)%nat -> add_weight_tuple m w = lift (add_weight m (first3 w)).
Proof.
  destruct w as [|a [|b [|x rest]]]; cbn [length]; try lia. intros _.
  unfold add_weight_tuple, first3, add_weight, index. cbn [nth_error nth obind].
  destruct (a =? b) eqn:Eab; cbn [negb].
  - unfold call_on, getitem. destruct (dict_get (nodes m) a); reflexivity.
  - unfold call_on, getitem. destruct (dict_get (nodes m) a) as [na|]; [|reflexivity].
    cbn [bind lift obind].
    destruct (dict_get (dict_set (nodes m) a (setJn na (b, x))) b); reflexivity.
Qed.

Lemma for_lines_lift {A B S} (body : S -> A -> outcome S) (f : S -> B -> result S)
  (g : A -> B) (xs : list A) (acc : S) :
  (forall x s, In x xs -> body s x = lift (f s (g x))) ->
  for_lines body xs acc = lift (for_each f (map g xs) acc).
Proof.
  revert acc. induction xs as [|x xs IH]; intros acc H; [reflexivity|].
  cbn [for_lines map for_each]. rewrite (H x acc (or_introl eq_refl)).
  destruct (f acc (g x)) as [acc'|e]; cbn [lift obind bind]; [|reflexivity].
  apply IH. intros y s Hy. apply H. right. assumption.
Qed.

(** On tuples of three or more integers the constructor reads the first
    three and ignores the rest: it behaves, result and exception alike, as on
    the list of those triples. *)
Theorem Model_init_tuples_triples rng node_qty weights c :
  (forall w, In w weights -> (3 <= length w)%nat) ->
  Model_init_tuples rng node_qty weights c
  = lift (Model_init rng node_qty (map first3 weights) c).
Proof.
  intros Hlen. unfold Model_init_tuples, Model_init.
  destruct (for_each (create_node rng) (range node_qty) ([], c)) as [st|e];
    cbn [lift obind bind]; [|reflexivity].
  rewrite (for_lines_lift add_weight_tuple add_weight first3)
    by (intros w s Hw; apply add_weight_tuple_triple, Hlen; assumption).
  destruct (for_each add_weight (map first3 weights) _); reflexivity.
Qed.

Lemma Model_init_tuples_triples_witness :
  Model_init_tuples rng0 2 [[0; 1; 4; 99]; [1; 1; 7]] 0
  = lift (Model_init rng0 2 (map first3 [[0; 1; 4; 99]; [1; 1; 7]]) 0).
Proof.
  apply (Model_init_tuples_triples rng0 2 [[0; 1; 4; 99]; [1; 1; 7]] 0%nat).
  intros w [<-|[<-|[]]]; simpl; lia.
Defined.

Lemma add_weight_tuple_short (m : Model) (w : list Z) :
  (length w < 3)%nat ->
  add_weight_tuple m w
  = Throw (match w with
           | [a; _] => match dict_get (nodes m) a with
                       | Some _ => IndexError
                       | None => Core (KeyError a)
                       end
           | _ => IndexError
           end).
Proof.
  destruct w as [|a [|b [|x rest]]]; cbn [length]; try lia; intros _; try reflexivity.
  unfold add_weight_tuple, index. cbn [nth_error obind].
  unfold getitem. destruct (a =? b); cbn [negb];
    destruct (dict_get (nodes m) a); reflexivity.
Qed.

(** A tuple with fewer than three integers stops the construction.  When
    the tuples before it are well formed, the exception is [IndexError],
    except for a two-element tuple whose first index is not a node: there the
    dictionary is subscripted first and [KeyError] is raised. *)
Theorem Model_init_tuples_short_tuple rng node_qty good w rest c :
  (forall x, In x good ->
     (3 <= length x)%nat
     /\ 0 <= fst (fst (first3 x)) < node_qty
     /\ 0 <= snd (fst (first3 x)) < node_qty) ->
  (length w < 3)%nat ->
  Model_init_tuples rng node_qty (good ++ w :: rest) c
  = Throw (match w with
           | [a; _] => if (0 <=? a) && (a <? node_qty) then IndexError
                       else Core (KeyError a)
           | _ => IndexError
           end).
Proof.
  intros Hgood Hshort. unfold Model_init_tuples, range. rewrite create_loop.
  cbn [lift obind fst snd]. rewrite for_lines_app.
  rewrite (for_lines_lift add_weight_tuple add_weight first3)
    by (intros x s Hx; apply add_weight_tuple_triple, Hgood; assumption).
  destruct (add_weights_total (map first3 good)
              {| nodes := initial_nodes rng c (Z.to_nat node_qty); Js := []; hs := [] |})
    as (m & Hm).
  { intros t Ht. apply in_map_iff in Ht. destruct Ht as (x & <- & Hx).
    cbn [nodes]. rewrite initial_nodes_keys. fold (range node_qty).
    rewrite !in_range. destruct (Hgood x Hx) as (_ & Ha & Hb). auto. }
  rewrite Hm. cbn [lift obind for_lines].
  apply add_weights_inv in Hm. destruct Hm as (K & _). cbn [nodes] in K.
  rewrite initial_nodes_keys in K. fold (range node_qty) in K.
  rewrite add_weight_tuple_short by assumption. cbn [obind]. f_equal.
  destruct w as [|a [|b' [|x' r']]]; try reflexivity.
  destruct ((0 <=? a) && (a <? node_qty)) eqn:Ea.
  - apply andb_true_iff in Ea. destruct Ea as [E1 E2].
    apply Z.leb_le in E1. apply Z.ltb_lt in E2.
    assert (Hin : dict_get (nodes m) a <> None).
    { apply dict_get_in_keys. rewrite K. apply in_range. lia. }
    destruct (dict_get (nodes m) a); [reflexivity | congruence].
  - destruct (dict_get (nodes m) a) eqn:Eg; [|reflexivity].
    assert (Hin : In a (range node_qty)).
    { rewrite <- K. apply dict_get_in_keys. congruence. }
    apply in_range in Hin. apply andb_false_iff in Ea. destruct Ea as [E1|E2].
    + apply Z.leb_gt in E1. lia.
    + apply Z.ltb_ge in E2. lia.
Qed.

Lemma Model_init_tuples_short_tuple_witness :
  Model_init_tuples rng0 2 ([[0; 1; 4]] ++ [5; 1] :: [[1; 1; 7]]) 0
  = Throw (Core (KeyError 5)).
Proof.
  apply (Model_init_tuples_short_tuple rng0 2 [[0; 1; 4]] [5; 1] [[1; 1; 7]] 0%nat).
  - intros x [<-|[]]. simpl. lia.
  - simpl. lia.
Defined.

(** From text to model: a small instance read, parsed and constructed. *)
Example text_to_model :
  let text := (str_of "c two nodes" ++ 10 :: str_of "p ising 2 2" ++ 10
               :: str_of "0 1 4" ++ 10 :: str_of "1 1 7" ++ [10])%N in
  parse_data ascii_builtins (get_data ascii_builtins text)
  = Return (2, [[0; 1; 4]; [1; 1; 7]])
  /\ Model_init_tuples rng0 2 [[0; 1; 4]; [1; 1; 7]] 0
     = Return (mkModel [(0, mkNode 1 0 [(1, 4)]); (1, mkNode (-1) 7 [(0, 4)])]
                       [(0, 1, 4)] [(1, 7)], 2%nat).
Proof. split; reflexivity. Qed.

(** * Further properties of modelSpin and of the two-node model *)

(** [modelSpin] works on any node dictionary, whatever its keys: it never
    raises and returns one symbol per entry, in insertion order, '+' for a
    positive spin and '-' for any other value. *)
Theorem modelSpin_total (d : dict) :
  NoDup (dict_keys d) ->
  modelSpin d = Ok (map (fun kv => symbol (getSpin (snd kv))) d)
  /\ (forall syms, modelSpin d = Ok syms -> length syms = length d).
Proof.
  intros Hnd. pose proof (modelSpin_NoDup d Hnd) as H. split; [exact H|].
  intros syms Hs. rewrite H in Hs. injection Hs as <-. apply length_map.
Qed.

Lemma modelSpin_total_witness :
  modelSpin [(7, mkNode 1 0 []); (-2, mkNode 0 0 []); (3, mkNode (-1) 0 [])]
  = Ok (map (fun kv => symbol (getSpin (snd kv)))
            [(7, mkNode 1 0 []); (-2, mkNode 0 0 []); (3, mkNode (-1) 0 [])])
  /\ (forall syms,
        modelSpin [(7, mkNode 1 0 []); (-2, mkNode 0 0 []); (3, mkNode (-1) 0 [])] = Ok syms ->
        length syms
        = length [(7, mkNode 1 0 []); (-2, mkNode 0 0 []); (3, mkNode (-1) 0 [])]).
Proof.
  apply (modelSpin_total [(7, mkNode 1 0 []); (-2, mkNode 0 0 []); (3, mkNode (-1) 0 [])]).
  repeat constructor; simpl; intuition discriminate.
Defined.

Lemma two_node_float_safe rng w c m c' :
  Model_init rng 2 [(0, 1, w)] c = Ok (m, c') ->
  2 * Z.abs w <= DBL_MAX ->
  float_safe (getNodes m).
Proof.
  intros Hm Hw k nd Hk. apply Model_init_inv in Hm.
  destruct Hm as (_ & _ & N & _). destruct (N k nd Hk) as (_ & HJ & Hh).
  unfold energy_bound. rewrite HJ, Hh. unfold incident, last_field.
  cbn [flat_map fold_left]. change (0 =? 1) with false. cbn [andb].
  assert (H0 : 0 <= DBL_MAX) by (unfold DBL_MAX; lia).
  destruct (0 =? k) eqn:E0; destruct (1 =? k) eqn:E1;
    cbn [app map snd]; unfold zsum; cbn [fold_right]; lia.
Qed.

(** Two nodes joined by one coupling of weight [w]: whatever the draws, the
    temperature and the number of sweeps, the energy that [modelE] returns
    is [-w] when the final spins are equal and [w] when they differ; and for
    [T > 0] and [2*|w|] within the range of floats it does return. *)
Theorem two_node_model_energy fl rng w c m c' I T :
  Model_init rng 2 [(0, 1, w)] c = Ok (m, c') ->
  (forall e st',
      modelE fl rng m 2 I T (getNodes m, c') = Ok (e, st') ->
      (spin_of (fst st') 0 = spin_of (fst st') 1 -> e = - w)
      /\ (spin_of (fst st') 0 <> spin_of (fst st') 1 -> e = w))
  /\ (2 * Z.abs w <= DBL_MAX -> (0 < T)%R ->
      exists e st', modelE fl rng m 2 I T (getNodes m, c') = Ok (e, st')).
Proof.
  intros Hm.
  pose proof (Model_init_establishes_inv _ _ _ _ _ _ Hm) as Hinv.
  destruct (Model_init_lists _ _ _ _ _ _ Hm) as [HJ HF].
  assert (Hval : forall st',
             repeat_n (Z.to_nat I) (update fl rng 2 T) (getNodes m, c') = Ok st' ->
             inv 2 (fst st')
             /\ modelE fl rng m 2 I T (getNodes m, c')
                = Ok (total_energy_spec (Js m) (hs m) (fst st'), st')).
  { intros st' Hrun.
    assert (Hinv' : inv 2 (fst st')).
    { apply (reachable_inv fl rng 2 T (getNodes m, c') st' Hinv).
      eapply sweeps_reachable; exact Hrun. }
    split; [exact Hinv' | apply modelE_energy; assumption]. }
  split.
  - intros e st' H. pose proof (modelE_inv _ _ _ _ _ _ _ _ _ H) as Hrun.
    destruct (Hval st' Hrun) as [Hinv' He]. rewrite He in H. injection H as <-.
    apply Model_init_inv in Hm. destruct Hm as (_ & _ & _ & -> & -> & _).
    destruct (inv_has_key 2 (fst st') 0 Hinv' ltac:(lia)) as (n0 & H0).
    destruct (inv_has_key 2 (fst st') 1 Hinv' ltac:(lia)) as (n1 & H1).
    destruct Hinv' as (_ & _ & S).
    pose proof (S 0 n0 H0) as S0. pose proof (S 1 n1 H1) as S1.
    unfold total_energy_spec, spin_of.
    cbn [filter is_edge is_field fst snd Z.eqb negb map zsum fold_right].
    rewrite H0, H1.
    split; intros Hs; destruct S0 as [E0|E0], S1 as [E1|E1]; rewrite E0, E1 in *; lia.
  - intros Hw HT.
    pose proof (two_node_float_safe rng w c m c' Hm Hw) as Hsafe.
    destruct (sweeps_total fl rng 2 T (Z.to_nat I) (getNodes m, c') Hinv Hsafe HT)
      as (st' & Hrun).
    destruct (Hval st' Hrun) as [_ He]. eauto.
Qed.

Lemma two_node_model_energy_witness :
  (forall e st',
      modelE real_floats rng0 (mkModel [(0, mkNode 1 0 [(1, 6)]); (1, mkNode (-1) 0 [(0, 6)])]
                           [(0, 1, 6)] []) 2 5 1
        (getNodes (mkModel [(0, mkNode 1 0 [(1, 6)]); (1, mkNode (-1) 0 [(0, 6)])]
                           [(0, 1, 6)] []), 2%nat)
      = Ok (e, st') ->
      (spin_of (fst st') 0 = spin_of (fst st') 1 -> e = - 6)
      /\ (spin_of (fst st') 0 <> spin_of (fst st') 1 -> e = 6))
  /\ (exists e st',
        modelE real_floats rng0 (mkModel [(0, mkNode 1 0 [(1, 6)]); (1, mkNode (-1) 0 [(0, 6)])]
                             [(0, 1, 6)] []) 2 5 1
          (getNodes (mkModel [(0, mkNode 1 0 [(1, 6)]); (1, mkNode (-1) 0 [(0, 6)])]
                             [(0, 1, 6)] []), 2%nat)
        = Ok (e, st')).
Proof.
  pose proof (two_node_model_energy real_floats rng0 6 0%nat
                (mkModel [(0, mkNode 1 0 [(1, 6)]); (1, mkNode (-1) 0 [(0, 6)])] [(0, 1, 6)] [])
                2%nat 5 1%R eq_refl) as [Hval Hret].
  split; [exact Hval|].
  apply Hret; [vm_compute; discriminate | exact Rlt_0_1].
Defined.
